(** * Fractional indexing: key envelope and list reordering helper

    A shallow embedding of
    [packages/common/infra/src/utils/fractional-indexing.ts]:

    - [generateFractionalIndexingKeyBetween], the wrapper that appends a
      random suffix to the key produced by the [fractional-indexing]
      package;
    - [createFractionalIndexingSortableHelper], the (deprecated) helper
      that reorders the items of a [SortableProvider].

    The package function [generateKeyBetween] is a dependency of the
    file, not part of it: it is a [Variable] of the sections below.  The
    first sections give it the type of its TypeScript declaration and so
    describe the runs on which the package returns.  The package throws
    on bounds it rejects (equal or reversed bounds, malformed keys);
    [Module Throwing] embeds the same functions over a package that may
    throw, where the exception leaves the function before any result or
    hook call.  Keys are byte strings compared lexicographically, as the
    JavaScript operators [<] and [>=] compare strings over the key
    alphabet. *)

From Stdlib Require Import ZArith Lia Bool Ascii String Sorted.
From stdpp Require Import list sorting.

Local Open Scope string_scope.
Local Open Scope list_scope.

(** String concatenation, the [+] of the source on strings. *)
Infix "+:+" := String.append (at level 60, right associativity).

(** ** Strings as the source uses them *)

Module Js.

(** [a < b] on strings. *)
Definition lt (a b : string) : bool := String.ltb a b.

(** [a > b] on strings. *)
Definition gt (a b : string) : bool := String.ltb b a.

(** [a >= b] on strings: the negation of [a < b]. *)
Definition ge (a b : string) : bool := negb (String.ltb a b).

(** [s.charAt(i)]: the one-character string at [i], empty out of range. *)
Definition charAt (s : string) (i : nat) : string :=
  match String.get i s with
  | Some c => String c EmptyString
  | None => EmptyString
  end.

(** [s.substring(0, e)] for [0 <= e]. *)
Definition substring0 (e : nat) (s : string) : string := String.substring 0 e s.

(** [xs[i]]: [undefined] for an index outside the array, negative ones
    included. *)
Definition index {A} (xs : list A) (i : Z) : option A :=
  if (i <? 0)%Z then None else xs !! Z.to_nat i.

(** [xs.findIndex(p)]: the first index whose element satisfies [p], or -1. *)
Fixpoint findIndex {A} (p : A -> bool) (xs : list A) : Z :=
  match xs with
  | [] => (-1)%Z
  | x :: xs' =>
      if p x then 0%Z
      else
        let r := findIndex p xs' in
        if (r <? 0)%Z then (-1)%Z else (r + 1)%Z
  end.

(** [xs.find(p)]: the first element that satisfies [p], or [undefined]. *)
Definition find {A} (p : A -> bool) (xs : list A) : option A := List.find p xs.

(** [xs.sort(cmp)] is a stable sort: [insertSorted] puts [x] behind every
    element that [cmp] does not place after it. *)
Fixpoint insertSorted {A} (cmp : A -> A -> Z) (x : A) (xs : list A) : list A :=
  match xs with
  | [] => [x]
  | y :: xs' =>
      if (0 <? cmp y x)%Z then x :: y :: xs' else y :: insertSorted cmp x xs'
  end.

Definition sort {A} (cmp : A -> A -> Z) (xs : list A) : list A :=
  fold_left (fun acc x => insertSorted cmp x acc) xs [].

End Js.

(** The order on keys, as a proposition. *)
Definition key_lt (a b : string) : Prop := String.compare a b = Lt.

(** [a >= b]: [a] is above [b] or equal to it. *)
Definition key_ge (a b : string) : Prop := key_lt b a \/ a = b.

(** A bound that may be absent puts no constraint. *)
Definition above (lo : option string) (k : string) : Prop :=
  match lo with Some a => key_lt a k | None => True end.

Definition below (k : string) (hi : option string) : Prop :=
  match hi with Some b => key_lt k b | None => True end.

(** What a call completes with: a returned value or a thrown [Error]. *)
Inductive completion (A : Type) : Type :=
| Returned (value : A)
| Thrown (message : string).
Arguments Returned {A} value.
Arguments Thrown {A} message.

(** Evaluation in sequence: a throw in the first step ends it. *)
Definition andThen {A B} (c : completion A) (k : A -> completion B)
  : completion B :=
  match c with
  | Returned a => k a
  | Thrown message => Thrown message
  end.

(** ** generateFractionalIndexingKeyBetween *)

Section KeyCodec.

(** [generateKeyBetween] of the [fractional-indexing] package. *)
Variable generateKeyBetween : option string -> option string -> string.

(** The bytes [crypto.getRandomValues] writes into [values], by index. *)
Variable values : nat -> N.

Definition randomSize : nat := 32.

Definition chars : string :=
  "123456789ABCDEFGHIJKLMNOPQRSTUVWXYZabcdefghijklmnopqrstuvwxyz".

(** The loop of [postfix]: [n] iterations left, starting at index [i]. *)
Fixpoint postfix_loop (i n : nat) (result : string) : string :=
  match n with
  | O => result
  | S n' =>
      postfix_loop (S i) n'
        (result +:+
         Js.charAt chars (N.to_nat (values i mod N.of_nat (String.length chars))))
  end.

Definition postfix (length : nat) : string := postfix_loop 0 length "".

Definition subkey (key : option string) : option string :=
  match key with
  | None => None
  | Some key =>
      if Nat.leb (String.length key) (randomSize + 1) then Some key
      else
        let splitAt := Js.substring0 (String.length key - randomSize - 1) key in
        Some splitAt
  end.

Definition isNull (x : option string) : bool :=
  match x with None => true | Some _ => false end.

(** [aSubkey === bSubkey], both known to be strings. *)
Definition sameString (x y : option string) : bool :=
  match x, y with
  | Some s, Some t => String.eqb s t
  | _, _ => false
  end.

Definition bothAndNotBelow (a b : option string) : bool :=
  match a, b with
  | Some a, Some b => Js.ge a b
  | _, _ => false
  end.

Definition generateFractionalIndexingKeyBetween (a b : option string)
  : completion string :=
  if bothAndNotBelow a b then Thrown "a should be smaller than b"
  else
    let aSubkey := subkey a in
    let bSubkey := subkey b in
    if isNull aSubkey && isNull bSubkey then
      Returned (generateKeyBetween None None +:+ "0" +:+ postfix randomSize)
    else if isNull aSubkey && negb (isNull bSubkey) then
      Returned (generateKeyBetween None bSubkey +:+ "0" +:+ postfix randomSize)
    else if isNull bSubkey && negb (isNull aSubkey) then
      Returned (generateKeyBetween aSubkey None +:+ "0" +:+ postfix randomSize)
    else if negb (isNull aSubkey) && negb (isNull bSubkey) then
      if sameString aSubkey bSubkey && negb (isNull a) && negb (isNull b) then
        Returned (generateKeyBetween a b +:+ "0" +:+ postfix randomSize)
      else
        Returned (generateKeyBetween aSubkey bSubkey +:+ "0" +:+ postfix randomSize)
    else Thrown "Never reach here".

End KeyCodec.

(** ** createFractionalIndexingSortableHelper *)

(** [position] of [moveTo]. *)
Inductive Position : Type := before | after.

Section SortableHelper.

Context {K : Type} `{EqDecision K}.

(** [generateKeyBetween] of the [fractional-indexing] package: the helper
    calls it directly. *)
Variable generateKeyBetween : option string -> option string -> string.

(** An item object, with the two fields the provider reads. *)
Record Item : Type := mkItem { itemId : K; itemOrder : string }.

(** The provider's item objects.  An object is addressed by its position
    here, which stands for its identity: sorting the array that
    [getItems] returns moves references, not objects. *)
Abbreviation Store := (list Item).

(** A value of the item type [T]: a reference, with the fields read
    through it when the snapshot was taken. *)
Definition T : Type := (nat * Item)%type.

Definition getItems (s : Store) : list T := imap (fun r it => (r, it)) s.
Definition getItemId (i : T) : K := itemId i.2.
Definition getItemOrder (i : T) : string := itemOrder i.2.

(** [setItemOrder(item, order)] writes the [order] field of the object. *)
Definition setItemOrder (i : T) (order : string) (s : Store) : Store :=
  alter (fun it => mkItem (itemId it) order) i.1 s.

(** A call of the mutation hook.  The item is [None] when the helper
    passes [undefined], which is no value of [T]. *)
Definition SetCall : Type := (option T * string)%type.

(** The store after the calls, or [None] when the hook was handed
    [undefined]: what happens then is the provider's business. *)
Fixpoint perform (calls : list SetCall) (s : Store) : option Store :=
  match calls with
  | [] => Some s
  | (Some i, order) :: calls' => perform calls' (setItemOrder i order s)
  | (None, _) :: _ => None
  end.

Definition compareOrder (a b : T) : Z :=
  let oa := getItemOrder a in
  let ob := getItemOrder b in
  if Js.gt oa ob then 1%Z else if Js.lt oa ob then (-1)%Z else 0%Z.

Definition getOrderedItems (s : Store) : list T :=
  Js.sort compareOrder (getItems s).

(** [x ? provider.getItemOrder(x) : null]; an item object is truthy. *)
Definition orderOrNull (x : option T) : option string :=
  match x with
  | Some i => Some (getItemOrder i)
  | None => None
  end.

Definition getLargestOrder (s : Store) : option string :=
  let lastItem := last (getOrderedItems s) in
  orderOrNull lastItem.

Definition getSmallestOrder (s : Store) : option string :=
  let firstItem := head (getOrderedItems s) in
  orderOrNull firstItem.

Definition getNewItemOrder (s : Store) : string :=
  generateKeyBetween (getLargestOrder s) None.

Definition hasId (k : K) (i : T) : bool := bool_decide (getItemId i = k).

Definition move (fromId toId : K) (s : Store) : list SetCall :=
  let items := getOrderedItems s in
  let from := Js.findIndex (hasId fromId) items in
  let to := Js.findIndex (hasId toId) items in
  let fromItem := Js.index items from in
  let toItem := Js.index items to in
  let toNextItem :=
    Js.index items (if (from <? to)%Z then (to + 1)%Z else (to - 1)%Z) in
  let toOrder := orderOrNull toItem in
  let toNextOrder := orderOrNull toNextItem in
  let args :=
    if (from <? to)%Z then (toOrder, toNextOrder) else (toNextOrder, toOrder) in
  [(fromItem, generateKeyBetween args.1 args.2)].

Definition moveTo (fromId toId : K) (position : Position) (s : Store)
  : list SetCall :=
  let items := getOrderedItems s in
  let from := Js.findIndex (hasId fromId) items in
  let to := Js.findIndex (hasId toId) items in
  match Js.index items from with
  | None => []
  | Some fromItem =>
      let toItem := Js.index items to in
      let toItemPrev := Js.index items (to - 1)%Z in
      let toItemNext := Js.index items (to + 1)%Z in
      let toItemOrder := orderOrNull toItem in
      let toItemPrevOrder := orderOrNull toItemPrev in
      let toItemNextOrder := orderOrNull toItemNext in
      match position with
      | before =>
          [(Some fromItem, generateKeyBetween toItemPrevOrder toItemOrder)]
      | after =>
          [(Some fromItem, generateKeyBetween toItemOrder toItemNextOrder)]
      end
  end.

(** [beforeId] is [None] for [undefined], which no item identifier
    equals. *)
Definition insertBefore (id : K) (beforeId : option K) (s : Store)
  : list SetCall :=
  let items := getOrderedItems s in
  match Js.find (hasId id) items with
  | None => []
  | Some item =>
      let beforeItemIndex :=
        Js.findIndex (fun i => bool_decide (Some (getItemId i) = beforeId)) items in
      let beforeItem :=
        if (beforeItemIndex =? -1)%Z then None
        else Js.index items beforeItemIndex in
      let beforeItemPrev :=
        match beforeItem with
        | Some _ => Js.index items (beforeItemIndex - 1)%Z
        | None => None
        end in
      let beforeOrder := orderOrNull beforeItem in
      let beforePrevOrder := orderOrNull beforeItemPrev in
      [(Some item, generateKeyBetween beforePrevOrder beforeOrder)]
  end.

End SortableHelper.

Abbreviation Store := (list Item).

Arguments mkItem {K} itemId itemOrder.
Arguments itemId {K} _.
Arguments itemOrder {K} _.

(** ** The same functions over a package that may throw

    [generateKeyBetween] is evaluated before [setItemOrder] is called and
    before the suffix is appended: when it throws, the exception leaves
    the function and nothing else happens. *)

Module Throwing.

Section KeyCodec.

Variable generateKeyBetween : option string -> option string -> completion string.
Variable values : nat -> N.

Definition generateFractionalIndexingKeyBetween (a b : option string)
  : completion string :=
  if bothAndNotBelow a b then Thrown "a should be smaller than b"
  else
    let aSubkey := subkey a in
    let bSubkey := subkey b in
    if isNull aSubkey && isNull bSubkey then
      andThen (generateKeyBetween None None)
        (fun r => Returned (r +:+ "0" +:+ postfix values randomSize))
    else if isNull aSubkey && negb (isNull bSubkey) then
      andThen (generateKeyBetween None bSubkey)
        (fun r => Returned (r +:+ "0" +:+ postfix values randomSize))
    else if isNull bSubkey && negb (isNull aSubkey) then
      andThen (generateKeyBetween aSubkey None)
        (fun r => Returned (r +:+ "0" +:+ postfix values randomSize))
    else if negb (isNull aSubkey) && negb (isNull bSubkey) then
      if sameString aSubkey bSubkey && negb (isNull a) && negb (isNull b) then
        andThen (generateKeyBetween a b)
          (fun r => Returned (r +:+ "0" +:+ postfix values randomSize))
      else
        andThen (generateKeyBetween aSubkey bSubkey)
          (fun r => Returned (r +:+ "0" +:+ postfix values randomSize))
    else Thrown "Never reach here".

End KeyCodec.

Section SortableHelper.

Context {K : Type} `{EqDecision K}.
Variable generateKeyBetween : option string -> option string -> completion string.

Definition getNewItemOrder (s : list (@Item K)) : completion string :=
  generateKeyBetween (getLargestOrder s) None.

Definition move (fromId toId : K) (s : list (@Item K))
  : completion (list SetCall) :=
  let items := getOrderedItems s in
  let from := Js.findIndex (hasId fromId) items in
  let to := Js.findIndex (hasId toId) items in
  let fromItem := Js.index items from in
  let toItem := Js.index items to in
  let toNextItem :=
    Js.index items (if (from <? to)%Z then (to + 1)%Z else (to - 1)%Z) in
  let toOrder := orderOrNull toItem in
  let toNextOrder := orderOrNull toNextItem in
  let args :=
    if (from <? to)%Z then (toOrder, toNextOrder) else (toNextOrder, toOrder) in
  andThen (generateKeyBetween args.1 args.2)
    (fun key => Returned [(fromItem, key)]).

Definition moveTo (fromId toId : K) (position : Position) (s : list (@Item K))
  : completion (list SetCall) :=
  let items := getOrderedItems s in
  let from := Js.findIndex (hasId fromId) items in
  let to := Js.findIndex (hasId toId) items in
  match Js.index items from with
  | None => Returned []
  | Some fromItem =>
      let toItem := Js.index items to in
      let toItemPrev := Js.index items (to - 1)%Z in
      let toItemNext := Js.index items (to + 1)%Z in
      let toItemOrder := orderOrNull toItem in
      let toItemPrevOrder := orderOrNull toItemPrev in
      let toItemNextOrder := orderOrNull toItemNext in
      match position with
      | before =>
          andThen (generateKeyBetween toItemPrevOrder toItemOrder)
            (fun key => Returned [(Some fromItem, key)])
      | after =>
          andThen (generateKeyBetween toItemOrder toItemNextOrder)
            (fun key => Returned [(Some fromItem, key)])
      end
  end.

Definition insertBefore (id : K) (beforeId : option K) (s : list (@Item K))
  : completion (list SetCall) :=
  let items := getOrderedItems s in
  match Js.find (hasId id) items with
  | None => Returned []
  | Some item =>
      let beforeItemIndex :=
        Js.findIndex (fun i => bool_decide (Some (getItemId i) = beforeId)) items in
      let beforeItem :=
        if (beforeItemIndex =? -1)%Z then None
        else Js.index items beforeItemIndex in
      let beforeItemPrev :=
        match beforeItem with
        | Some _ => Js.index items (beforeItemIndex - 1)%Z
        | None => None
        end in
      let beforeOrder := orderOrNull beforeItem in
      let beforePrevOrder := orderOrNull beforeItemPrev in
      andThen (generateKeyBetween beforePrevOrder beforeOrder)
        (fun key => Returned [(Some item, key)])
  end.

End SortableHelper.

End Throwing.

(** ** Notions used to state what the helper does *)

Section HelperNotions.

Context {K : Type}.

(** An item with identifier [k] is in the collection. *)
Definition present (k : K) (s : Store) : Prop :=
  exists it : Item, it ∈ s /\ itemId it = k.

(** A bound handed to the package: [null], or the key of an item of the
    collection. *)
Definition boundOf (s : list (@Item K)) (x : option string) : Prop :=
  x = None \/ exists it : Item, it ∈ s /\ x = Some (itemOrder it).

(** [calls] is one call of the hook, on the item identified by [k]; it
    writes that item's key and leaves every other object as it was. *)
Definition assignsOne (calls : list SetCall) (s : Store) (k : K) : Prop :=
  exists (r : nat) (it : Item) (key : string) (s' : Store),
    s !! r = Some it /\ itemId it = k /\
    calls = [(Some (r, it), key)] /\
    perform calls s = Some s' /\
    s' !! r = Some (mkItem k key) /\
    forall j, j <> r -> s' !! j = s !! j.


End HelperNotions.

(** The bounds that [generateFractionalIndexingKeyBetween] hands to the
    package: the full keys when both subkeys are strings and equal, the
    subkeys otherwise. *)
Definition boundsUsed (a b : option string) : option string * option string :=
  if sameString (subkey a) (subkey b) then (a, b) else (subkey a, subkey b).

(** Items in key order: the key of [x] is not above the key of [y]. *)
Definition inOrder {K : Type} (x y : T (K := K)) : Prop :=
  key_ge (getItemOrder y) (getItemOrder x).

(** [key] sorts after the first [n] items of the sorted snapshot and
    before all the others: an item given this key lands at position [n]
    among them. *)
Definition splitsAt {K : Type} (items : list (T (K := K))) (n : nat)
    (key : string) : Prop :=
  (forall j x, j < n -> items !! j = Some x -> key_lt (getItemOrder x) key) /\
  (forall j x, n <= j -> items !! j = Some x -> key_lt key (getItemOrder x)).

(** Items in strictly ascending key order: no two keys are equal. *)
Definition strictlyBefore {K : Type} (x y : T (K := K)) : Prop :=
  key_lt (getItemOrder x) (getItemOrder y).

(** [xs] with the element at position [from] taken out and [x'] put at
    position [n], counted in [xs] as it was: the other elements keep
    their order. *)
Definition relocate {A} (from n : nat) (x' : A) (xs : list A) : list A :=
  let rest := delete from xs in
  let target := if Nat.ltb from n then n - 1 else n in
  take target rest ++ x' :: drop target rest.

(** Every character of [s] is one of [alphabet]. *)
Definition drawnFrom (alphabet s : string) : Prop :=
  Forall (fun c => In c (list_ascii_of_string alphabet))
    (list_ascii_of_string s).

(** The envelope of [generateFractionalIndexingKeyBetween]: the key ends
    with the separator and 32 more characters. *)
Definition hasEnvelope (key : string) : bool :=
  Nat.leb 33 (String.length key)
  && String.eqb (Js.charAt key (String.length key - 33)) "0".

(** ** Sample data *)

(** Two keys that share the subkey [a0] and differ in the suffix. *)
Definition lowTwin : string := "a0" +:+ "0" +:+ "11111111111111111111111111111111".
Definition highTwin : string := "a0" +:+ "0" +:+ "21111111111111111111111111111111".

(** Answers of the package's [generateKeyBetween] on the calls that the
    examples below make, as bounds and answer. *)
Definition sampleAnswers : list (option string * option string * string) :=
  [ (None, None, "a0");
    (Some "a2", None, "a3");
    (Some "a0", Some "a1", "a0V");
    (Some "a1", Some "a2", "a1V");
    (None, Some "a0", "Zz");
    (None, Some "a00V", "a0");
    (Some lowTwin, Some highTwin, "a002") ].

Definition sameBound (x y : option string) : bool :=
  match x, y with
  | None, None => true
  | Some s, Some t => String.eqb s t
  | _, _ => false
  end.

(** The package on the sample calls; the answer elsewhere is of no
    use. *)
Definition sampleKeyBetween (lo hi : option string) : string :=
  match List.find (fun e => sameBound e.1.1 lo && sameBound e.1.2 hi) sampleAnswers with
  | Some e => e.2
  | None => "a0"
  end.

(** The package with its guard on the order of the bounds: it throws
    when both are given and the first is not below the second, as the
    package does, and answers as [sampleKeyBetween] otherwise. *)
Definition samplePackage (lo hi : option string) : completion string :=
  match lo, hi with
  | Some a, Some b =>
      if Js.ge a b then Thrown (a +:+ " >= " +:+ b)
      else Returned (sampleKeyBetween lo hi)
  | _, _ => Returned (sampleKeyBetween lo hi)
  end.

(** Random bytes that all select the last character of [chars]. *)
Definition allSixty : nat -> N := fun _ => 60%N.

(** A key that [generateFractionalIndexingKeyBetween] itself produces:
    the package's key [a00V], the separator, and a suffix of 32
    characters of [chars]. *)
Definition suffixedKey : string :=
  "a00V" +:+ "0" +:+ "11111111111111111111111111111111".

(** Three items in key order, identified by numbers. *)
Definition itemA : Item (K := nat) := mkItem 1 "a0".
Definition itemB : Item (K := nat) := mkItem 2 "a1".
Definition itemC : Item (K := nat) := mkItem 3 "a2".
Definition abc : list (@Item nat) := [itemA; itemB; itemC].

(** The collection that [insertBefore(2, undefined)] leaves: items 1 and
    2 share the key [a0]. *)
Definition twoEqual : list (@Item nat) := [itemA; mkItem 2 "a0"; itemC].

(** ** Facts about strings *)

Lemma length_append (s t : string) :
  String.length (s +:+ t) = String.length s + String.length t.
Proof. induction s as [|c s IH]; simpl; [reflexivity | now rewrite IH]. Qed.

Lemma substring0_append (s t : string) :
  Js.substring0 (String.length s) (s +:+ t) = s.
Proof.
  unfold Js.substring0.
  induction s as [|c s IH]; simpl.
  - destruct t; reflexivity.
  - now rewrite IH.
Qed.

(** Cutting a string at [n] loses exactly the characters behind [n]. *)
Lemma substring0_split (n : nat) (s : string) :
  n <= String.length s ->
  exists tail,
    s = Js.substring0 n s +:+ tail /\ String.length tail = String.length s - n.
Proof.
  unfold Js.substring0.
  revert s; induction n as [|n IH]; intros s Hn.
  - exists s. split; [destruct s; reflexivity | lia].
  - destruct s as [|c s]; simpl in Hn; [lia|].
    destruct (IH s) as (tail & Hs & Hl); [lia|].
    exists tail. simpl. split; [now rewrite <- Hs | exact Hl].
Qed.

Lemma charAt_chars_length (k : nat) :
  k < String.length chars -> String.length (Js.charAt chars k) = 1.
Proof.
  intros Hk. simpl in Hk.
  do 61 (destruct k as [|k]; [reflexivity|]).
  lia.
Qed.

Section KeyCodecFacts.

Variable generateKeyBetween : option string -> option string -> string.
Variable values : nat -> N.

Lemma length_postfix_loop (i n : nat) (result : string) :
  String.length (postfix_loop values i n result) = String.length result + n.
Proof.
  revert i result; induction n as [|n IH]; intros i result; simpl; [lia|].
  rewrite IH, length_append, charAt_chars_length; [lia|].
  pose proof (N.mod_lt (values i) (N.of_nat (String.length chars))) as Hlt.
  simpl in *. lia.
Qed.

(** The suffix always has [randomSize] characters. *)
Lemma length_postfix (n : nat) : String.length (postfix values n) = n.
Proof. unfold postfix. now rewrite length_postfix_loop. Qed.

Lemma subkey_short (x : string) :
  String.length x <= 33 -> subkey (Some x) = Some x.
Proof.
  intros Hx. unfold subkey.
  destruct (Nat.leb_spec (String.length x) (randomSize + 1)) as [_|Hgt];
    [reflexivity | unfold randomSize in Hgt; lia].
Qed.

Lemma subkey_long (x : string) :
  33 < String.length x ->
  subkey (Some x) = Some (Js.substring0 (String.length x - 33) x).
Proof.
  intros Hx. unfold subkey.
  destruct (Nat.leb_spec (String.length x) (randomSize + 1)) as [Hle|_];
    [unfold randomSize in Hle; lia|].
  unfold randomSize. do 2 f_equal. lia.
Qed.

(** A key built as subkey, separator, 32-character suffix gives the
    subkey back, for a subkey that is not empty. *)
Lemma subkey_envelope (sub suffix : string) :
  sub <> "" -> String.length suffix = 32 ->
  subkey (Some (sub +:+ "0" +:+ suffix)) = Some sub.
Proof.
  intros Hsub Hsuffix.
  assert (0 < String.length sub) by (destruct sub; [congruence | simpl; lia]).
  rewrite subkey_long; rewrite length_append; simpl; rewrite Hsuffix; [|lia].
  replace (String.length sub + 33 - 33) with (String.length sub) by lia.
  now rewrite substring0_append.
Qed.

End KeyCodecFacts.

(** ** Facts about arrays *)

Lemma index_negative {A} (xs : list A) (i : Z) : (i < 0)%Z -> Js.index xs i = None.
Proof.
  intros Hi. unfold Js.index.
  destruct (Z.ltb_spec i 0) as [_|Hge]; [reflexivity | lia].
Qed.


Lemma index_elem_of {A} (xs : list A) (i : Z) (x : A) :
  Js.index xs i = Some x -> x ∈ xs.
Proof.
  unfold Js.index. destruct (i <? 0)%Z; [discriminate|].
  apply list_elem_of_lookup_2.
Qed.

(** No element satisfies [p]: [findIndex] answers -1. *)
Lemma findIndex_none {A} (p : A -> bool) (xs : list A) :
  (forall x, x ∈ xs -> p x = false) -> Js.findIndex p xs = (-1)%Z.
Proof.
  induction xs as [|x xs IH]; intros Hp; simpl; [reflexivity|].
  rewrite (Hp x) by apply list_elem_of_here.
  rewrite IH by (intros y Hy; apply Hp; now apply list_elem_of_further).
  reflexivity.
Qed.

(** Some element satisfies [p]: [findIndex] answers the index of one. *)
Lemma findIndex_some {A} (p : A -> bool) (xs : list A) (x : A) :
  x ∈ xs -> p x = true ->
  exists y, Js.index xs (Js.findIndex p xs) = Some y /\ p y = true.
Proof.
  induction xs as [|z xs IH]; intros Hin Hpx.
  - now apply elem_of_nil in Hin.
  - simpl. destruct (p z) eqn:Hpz.
    + exists z. now split.
    + apply elem_of_cons in Hin as [-> | Hin]; [congruence|].
      destruct (IH Hin Hpx) as (y & Hy & Hpy).
      exists y. split; [|exact Hpy].
      unfold Js.index in *.
      destruct (Z.ltb_spec (Js.findIndex p xs) 0) as [Hneg|Hpos];
        [discriminate|].
      destruct (Z.ltb_spec (Js.findIndex p xs + 1) 0) as [Hneg'|_]; [lia|].
      replace (Z.to_nat (Js.findIndex p xs + 1))
        with (S (Z.to_nat (Js.findIndex p xs))) by lia.
      exact Hy.
Qed.

Lemma find_none {A} (p : A -> bool) (xs : list A) :
  (forall x, x ∈ xs -> p x = false) -> Js.find p xs = None.
Proof.
  unfold Js.find.
  induction xs as [|x xs IH]; intros Hp; simpl; [reflexivity|].
  rewrite (Hp x) by apply list_elem_of_here.
  apply IH. intros y Hy. apply Hp. now apply list_elem_of_further.
Qed.

Lemma find_some {A} (p : A -> bool) (xs : list A) (x : A) :
  x ∈ xs -> p x = true ->
  exists y, Js.find p xs = Some y /\ y ∈ xs /\ p y = true.
Proof.
  unfold Js.find.
  induction xs as [|z xs IH]; intros Hin Hpx.
  - now apply elem_of_nil in Hin.
  - simpl. destruct (p z) eqn:Hpz.
    + exists z. repeat split; [apply list_elem_of_here | exact Hpz].
    + apply elem_of_cons in Hin as [-> | Hin]; [congruence|].
      destruct (IH Hin Hpx) as (y & Hy & Hyin & Hpy).
      exists y. repeat split; [exact Hy | now apply list_elem_of_further | exact Hpy].
Qed.

Lemma insertSorted_Permutation {A} (cmp : A -> A -> Z) (x : A) (xs : list A) :
  Js.insertSorted cmp x xs ≡ₚ x :: xs.
Proof.
  induction xs as [|y xs IH]; simpl; [reflexivity|].
  destruct (0 <? cmp y x)%Z; [reflexivity|].
  rewrite IH. apply Permutation_swap.
Qed.

(** Sorting rearranges: it neither drops nor adds an element. *)
Lemma sort_Permutation {A} (cmp : A -> A -> Z) (xs : list A) :
  Js.sort cmp xs ≡ₚ xs.
Proof.
  unfold Js.sort.
  assert (Hgen : forall acc,
    fold_left (fun acc x => Js.insertSorted cmp x acc) xs acc ≡ₚ acc ++ xs).
  { induction xs as [|x xs IH]; intros acc; simpl.
    - now rewrite app_nil_r.
    - rewrite IH, insertSorted_Permutation.
      now rewrite (Permutation_middle acc xs x). }
  apply (Hgen []).
Qed.

(** ** The order on keys *)

Lemma ltb_key_lt (a b : string) : String.ltb a b = true <-> key_lt a b.
Proof.
  unfold String.ltb, key_lt.
  destruct (String.compare a b); split; congruence.
Qed.

Lemma key_lt_flip (a b : string) : key_lt a b <-> String.compare b a = Gt.
Proof.
  unfold key_lt. rewrite (String.compare_antisym b a).
  destruct (String.compare a b); simpl; split; congruence.
Qed.

Lemma key_lt_irrefl (a : string) : ~ key_lt a a.
Proof.
  unfold key_lt. intros Hlt.
  pose proof (String.compare_antisym a a) as Hanti.
  rewrite Hlt in Hanti. discriminate.
Qed.

Lemma key_lt_asym (a b : string) : key_lt a b -> ~ key_lt b a.
Proof.
  intros Hab Hba. apply key_lt_flip in Hab. unfold key_lt in Hba. congruence.
Qed.

(** The source's test [a >= b] is true exactly when [key_ge a b]. *)
Lemma ge_key_ge (a b : string) : Js.ge a b = true <-> key_ge a b.
Proof.
  unfold Js.ge, key_ge. rewrite negb_true_iff. split.
  - intros Hltb.
    destruct (String.compare a b) eqn:Hcmp.
    + right. now apply String.compare_eq_iff.
    + unfold String.ltb in Hltb. rewrite Hcmp in Hltb. discriminate.
    + left. now apply key_lt_flip.
  - intros [Hlt | ->].
    + apply not_true_is_false. rewrite ltb_key_lt. now apply key_lt_asym.
    + apply not_true_is_false. rewrite ltb_key_lt. apply key_lt_irrefl.
Qed.


(** Every sample answer lies strictly between its bounds, as the
    package promises. *)
Lemma sampleAnswers_between :
  Forall (fun e => above e.1.1 e.2 /\ below e.2 e.1.2) sampleAnswers.
Proof. repeat constructor. Qed.

(** ** The key envelope *)

Section KeyCodecTheorems.

Variable generateKeyBetween : option string -> option string -> string.
Variable values : nat -> N.

(** C2.  With both bounds present and [a >= b], the call throws the
    bound-order error: it returns no string. *)
Theorem bound_order_rejected (a b : string) :
  key_ge a b ->
  generateFractionalIndexingKeyBetween generateKeyBetween values (Some a) (Some b)
  = Thrown "a should be smaller than b".
Proof.
  intros Hge. apply ge_key_ge in Hge.
  unfold generateFractionalIndexingKeyBetween, bothAndNotBelow.
  now rewrite Hge.
Qed.

(** C4.  A key of at most 33 characters is its own subkey.  A longer key
    loses exactly its last 33 characters, and that subkey followed by the
    separator and any 32 characters has the same subkey again. *)
Theorem subkey_extraction (x : string) :
  (String.length x <= 33 -> subkey (Some x) = Some x) /\
  (33 < String.length x ->
   exists sub tail,
     subkey (Some x) = Some sub /\
     x = sub +:+ tail /\ String.length tail = 33 /\
     forall s, String.length s = 32 ->
       subkey (Some (sub +:+ "0" +:+ s)) = Some sub).
Proof.
  split; [apply subkey_short|].
  intros Hlong.
  destruct (substring0_split (String.length x - 33) x) as (tail & Hx & Htail);
    [lia|].
  exists (Js.substring0 (String.length x - 33) x), tail.
  split; [now apply subkey_long|].
  split; [exact Hx|].
  split; [lia|].
  intros s Hs. apply subkey_envelope; [|exact Hs].
  intros Hempty. rewrite Hempty in Hx. simpl in Hx. subst tail. lia.
Qed.


End KeyCodecTheorems.

(** C2 at [a = b = "a0"]. *)
Lemma bound_order_rejected_witness :
  key_ge "a0" "a0" /\
  generateFractionalIndexingKeyBetween sampleKeyBetween allSixty
    (Some "a0") (Some "a0")
  = Thrown "a should be smaller than b".
Proof.
  assert (Hge : key_ge "a0" "a0") by (right; reflexivity).
  split; [exact Hge|].
  exact (bound_order_rejected sampleKeyBetween allSixty "a0" "a0" Hge).
Defined.

(** C4 on a key of 37 characters and on one of 2. *)
Lemma subkey_extraction_witness :
  (String.length "a0" <= 33 -> subkey (Some "a0") = Some "a0") /\
  (33 < String.length suffixedKey ->
   exists sub tail,
     subkey (Some suffixedKey) = Some sub /\
     suffixedKey = sub +:+ tail /\ String.length tail = 33 /\
     forall s, String.length s = 32 ->
       subkey (Some (sub +:+ "0" +:+ s)) = Some sub).
Proof.
  split.
  - exact (proj1 (subkey_extraction "a0")).
  - exact (proj2 (subkey_extraction suffixedKey)).
Defined.


(** C1.  Strict betweenness fails on a bound the function produced
    itself.  With no lower bound and the upper bound [suffixedKey], whose
    subkey is [a00V], the package answers [a0], which is below [a00V] as
    its contract asks.  The returned key starts with [a00z] and is above
    the upper bound [a00V0...]. *)
Theorem upper_bound_exceeded :
  subkey (Some suffixedKey) = Some "a00V" /\
  sampleKeyBetween None (Some "a00V") = "a0" /\
  key_lt "a0" "a00V" /\
  generateFractionalIndexingKeyBetween sampleKeyBetween allSixty
    None (Some suffixedKey)
  = Returned ("a0" +:+ "0" +:+ "zzzzzzzzzzzzzzzzzzzzzzzzzzzzzzzz") /\
  key_lt suffixedKey ("a0" +:+ "0" +:+ "zzzzzzzzzzzzzzzzzzzzzzzzzzzzzzzz").
Proof. repeat split. Qed.

(** ** The reordering helper *)

Section HelperFacts.

Context {K : Type} `{EqDecision K}.
Variable generateKeyBetween : option string -> option string -> string.

Implicit Types (s : list (@Item K)) (i : T (K := K)) (k : K).

Lemma elem_of_getItems s i : i ∈ getItems s <-> s !! i.1 = Some i.2.
Proof.
  unfold getItems. rewrite elem_of_lookup_imap. split.
  - intros (r & it & -> & Hr). exact Hr.
  - intros Hr. exists i.1, i.2. split; [now destruct i | exact Hr].
Qed.

(** The sorted snapshot holds exactly the objects of the store. *)
Lemma elem_of_getOrderedItems s i :
  i ∈ getOrderedItems s <-> s !! i.1 = Some i.2.
Proof.
  unfold getOrderedItems. rewrite sort_Permutation. apply elem_of_getItems.
Qed.

Lemma hasId_true k i : hasId k i = true <-> itemId i.2 = k.
Proof. unfold hasId, getItemId. apply bool_decide_eq_true. Qed.

Lemma present_findIndex k s :
  present k s ->
  exists r it,
    s !! r = Some it /\ itemId it = k /\
    Js.index (getOrderedItems s) (Js.findIndex (hasId k) (getOrderedItems s))
    = Some (r, it).
Proof.
  intros (it & Hin & Hid).
  apply list_elem_of_lookup_1 in Hin as (r & Hr).
  destruct (findIndex_some (hasId k) (getOrderedItems s) (r, it))
    as ([r' it'] & Hidx & Hp).
  - now apply elem_of_getOrderedItems.
  - now apply hasId_true.
  - exists r', it'. split; [|split].
    + apply index_elem_of in Hidx. now apply elem_of_getOrderedItems in Hidx.
    + now apply hasId_true in Hp.
    + exact Hidx.
Qed.

Lemma absent_findIndex k s :
  ~ present k s -> Js.findIndex (hasId k) (getOrderedItems s) = (-1)%Z.
Proof.
  intros Habsent. apply findIndex_none. intros [r it] Hin.
  apply not_true_is_false. rewrite hasId_true. intros Hid.
  apply Habsent. exists it. split; [|exact Hid].
  apply elem_of_getOrderedItems in Hin. now apply list_elem_of_lookup_2 in Hin.
Qed.

Lemma present_find k s :
  present k s ->
  exists r it,
    s !! r = Some it /\ itemId it = k /\
    Js.find (hasId k) (getOrderedItems s) = Some (r, it).
Proof.
  intros (it & Hin & Hid).
  apply list_elem_of_lookup_1 in Hin as (r & Hr).
  destruct (find_some (hasId k) (getOrderedItems s) (r, it))
    as ([r' it'] & Hfind & Hin' & Hp).
  - now apply elem_of_getOrderedItems.
  - now apply hasId_true.
  - exists r', it'. split; [|split].
    + now apply elem_of_getOrderedItems in Hin'.
    + now apply hasId_true in Hp.
    + exact Hfind.
Qed.

Lemma absent_find k s :
  ~ present k s -> Js.find (hasId k) (getOrderedItems s) = None.
Proof.
  intros Habsent. apply find_none. intros [r it] Hin.
  apply not_true_is_false. rewrite hasId_true. intros Hid.
  apply Habsent. exists it. split; [|exact Hid].
  apply elem_of_getOrderedItems in Hin. now apply list_elem_of_lookup_2 in Hin.
Qed.

(** No item has the identifier [undefined], nor one that is absent. *)
Lemma findIndex_before_absent (beforeId : option K) s :
  (forall k, beforeId = Some k -> ~ present k s) ->
  Js.findIndex (fun i => bool_decide (Some (getItemId i) = beforeId))
    (getOrderedItems s) = (-1)%Z.
Proof.
  intros Habsent. apply findIndex_none. intros [r it] Hin.
  apply bool_decide_eq_false. intros Heq.
  apply (Habsent (itemId it)); [now rewrite <- Heq|].
  exists it. split; [|reflexivity].
  apply elem_of_getOrderedItems in Hin. now apply list_elem_of_lookup_2 in Hin.
Qed.

(** Whatever index is read, the key found there is a bound of the
    collection. *)
Lemma boundOf_index s (n : Z) :
  boundOf s (orderOrNull (Js.index (getOrderedItems s) n)).
Proof.
  destruct (Js.index (getOrderedItems s) n) as [[r it]|] eqn:Hidx; simpl.
  - right. exists it. split; [|reflexivity].
    apply index_elem_of, elem_of_getOrderedItems in Hidx.
    now apply list_elem_of_lookup_2 in Hidx.
  - now left.
Qed.

Lemma boundOf_None s : boundOf s None.
Proof. now left. Qed.

(** One call on an object of the store writes that object only. *)
Lemma assignsOne_intro s r (it : Item) (key : string) :
  s !! r = Some it ->
  assignsOne [(Some (r, it), key)] s (itemId it).
Proof.
  intros Hr.
  exists r, it, key, (setItemOrder (r, it) key s).
  repeat split; try assumption.
  - unfold setItemOrder. cbn [fst snd].
    rewrite list_lookup_alter_eq, Hr. reflexivity.
  - intros j Hj. unfold setItemOrder. cbn [fst snd].
    apply list_lookup_alter_ne. congruence.
Qed.

End HelperFacts.

Section HelperTheorems.

Context {K : Type} `{EqDecision K}.
Variable generateKeyBetween : option string -> option string -> string.

Implicit Types (s : list (@Item K)) (k : K).

(** [move] has no guard: with [fromId] missing it still calls the hook,
    on [undefined]. *)
Lemma move_missing_from (fromId toId : K) s :
  ~ present fromId s ->
  exists key, move generateKeyBetween fromId toId s = [(None, key)].
Proof.
  intros Habsent. unfold move.
  rewrite (absent_findIndex fromId s Habsent).
  rewrite (index_negative _ (-1)) by lia.
  eexists. reflexivity.
Qed.

(** [moveTo] returns before any call when [fromId] is missing. *)
Lemma moveTo_missing_from (fromId toId : K) (position : Position) s :
  ~ present fromId s ->
  moveTo generateKeyBetween fromId toId position s = [].
Proof.
  intros Habsent. unfold moveTo.
  rewrite (absent_findIndex fromId s Habsent).
  now rewrite (index_negative _ (-1)) by lia.
Qed.

(** [insertBefore] returns before any call when [id] is missing. *)
Lemma insertBefore_missing (id : K) (beforeId : option K) s :
  ~ present id s ->
  insertBefore generateKeyBetween id beforeId s = [].
Proof.
  intros Habsent. unfold insertBefore.
  now rewrite (absent_find id s Habsent).
Qed.

(** With [beforeId] undefined or not found, [insertBefore] asks the
    package for a key between [null] and [null]. *)
Lemma insertBefore_no_target (id : K) (beforeId : option K) s :
  present id s ->
  (forall k, beforeId = Some k -> ~ present k s) ->
  exists r it,
    s !! r = Some it /\ itemId it = id /\
    insertBefore generateKeyBetween id beforeId s
    = [(Some (r, it), generateKeyBetween None None)].
Proof.
  intros Hid Hbefore.
  destruct (present_find id s Hid) as (r & it & Hr & Hit & Hfind).
  exists r, it. split; [exact Hr|]. split; [exact Hit|].
  unfold insertBefore.
  rewrite Hfind, (findIndex_before_absent beforeId s Hbefore).
  reflexivity.
Qed.

(** C3, as the code has it.  The helper calls the package's
    [generateKeyBetween] itself: a key it hands out or assigns is the
    package's answer for two bounds of the collection, with nothing
    appended. *)
Theorem helper_keys_are_package_keys
    (fromId toId id : K) (position : Position) (beforeId : option K) s :
  getNewItemOrder generateKeyBetween s
  = generateKeyBetween (getLargestOrder s) None /\
  forall call : SetCall,
    call ∈ move generateKeyBetween fromId toId s \/
    call ∈ moveTo generateKeyBetween fromId toId position s \/
    call ∈ insertBefore generateKeyBetween id beforeId s ->
    exists lo hi,
      boundOf s lo /\ boundOf s hi /\ call.2 = generateKeyBetween lo hi.
Proof.
  split; [reflexivity|].
  intros call [Hcall | [Hcall | Hcall]].
  - unfold move in Hcall. apply list_elem_of_singleton in Hcall as ->.
    destruct (_ <? _)%Z; do 2 eexists; cbn [fst snd];
      (split; [|split; [|reflexivity]]); apply boundOf_index.
  - unfold moveTo in Hcall.
    destruct (Js.index _ _) as [fromItem|]; [|now apply elem_of_nil in Hcall].
    destruct position; apply list_elem_of_singleton in Hcall as ->;
      do 2 eexists; cbn [fst snd];
      (split; [|split; [|reflexivity]]); apply boundOf_index.
  - unfold insertBefore in Hcall.
    destruct (Js.find _ _) as [item|]; [|now apply elem_of_nil in Hcall].
    apply list_elem_of_singleton in Hcall as ->.
    do 2 eexists; cbn [fst snd]. split; [|split; [|reflexivity]].
    + destruct (_ =? _)%Z; [apply boundOf_None|].
      destruct (Js.index _ _) as [x|]; [apply boundOf_index | apply boundOf_None].
    + destruct (_ =? _)%Z; [apply boundOf_None | apply boundOf_index].
Qed.

End HelperTheorems.

(** ** Moving the first of three items onto the last *)

Lemma key_lt_trans (a b c : string) : key_lt a b -> key_lt b c -> key_lt a c.
Proof.
  unfold key_lt. revert b c.
  induction a as [|ca a IH]; intros [|cb b] [|cc c]; simpl;
    try congruence.
  destruct (Ascii.compare ca cb) eqn:Hab; try discriminate.
  - apply Ascii.compare_eq_iff in Hab as ->.
    destruct (Ascii.compare cb cc); try discriminate; [apply IH | reflexivity].
  - intros _.
    destruct (Ascii.compare cb cc) eqn:Hbc; try discriminate.
    + apply Ascii.compare_eq_iff in Hbc as ->. now rewrite Hab.
    + intros _.
      assert (Hac : Ascii.compare ca cc = Lt).
      { unfold Ascii.compare in *. rewrite N.compare_lt_iff in *. lia. }
      now rewrite Hac.
Qed.

Lemma key_lt_ltb (a b : string) :
  key_lt a b -> String.ltb a b = true /\ String.ltb b a = false.
Proof.
  intros Hlt. split; [now apply ltb_key_lt|].
  apply not_true_is_false. rewrite ltb_key_lt. now apply key_lt_asym.
Qed.

(** The six arrangements of three items. *)
Lemma Permutation_three {A} (xs : list A) (a b c : A) :
  xs ≡ₚ [a; b; c] ->
  xs = [a; b; c] \/ xs = [a; c; b] \/ xs = [b; a; c] \/
  xs = [b; c; a] \/ xs = [c; a; b] \/ xs = [c; b; a].
Proof.
  intros Hperm.
  apply Permutation_cons_inv_r in Hperm as (k1 & k2 & -> & Hrest).
  symmetry in Hrest.
  apply Permutation_cons_inv_r in Hrest as (k3 & k4 & Hk & Hlast).
  apply Permutation_singleton_l in Hlast.
  destruct k3 as [|x [|y k3]], k4 as [|z k4]; simplify_eq/=;
    destruct k1 as [|x1 [|x2 [|x3 k1]]]; simplify_eq/=; tauto.
Qed.

Section MoveThree.

Context {K : Type} `{EqDecision K}.
Variable generateKeyBetween : option string -> option string -> string.

Implicit Types x y : T (K := K).

(** The comparator puts [y] after [x] exactly when [y]'s key is above. *)
Lemma compareOrder_after x y :
  key_lt (getItemOrder x) (getItemOrder y) -> (0 <? compareOrder y x)%Z = true.
Proof.
  intros Hlt. unfold compareOrder, Js.gt, Js.lt.
  destruct (key_lt_ltb _ _ Hlt) as [-> _]. reflexivity.
Qed.

Lemma compareOrder_not_after x y :
  key_lt (getItemOrder y) (getItemOrder x) -> (0 <? compareOrder y x)%Z = false.
Proof.
  intros Hlt. unfold compareOrder, Js.gt, Js.lt.
  destruct (key_lt_ltb _ _ Hlt) as [-> ->]. reflexivity.
Qed.

Local Arguments compareOrder : simpl never.

Local Ltac sort_eval :=
  unfold getOrderedItems, getItems, Js.sort; cbn;
  repeat (first [ rewrite compareOrder_after by (cbn; assumption)
                | rewrite compareOrder_not_after by (cbn; assumption) ]; cbn).

(** [move] on a sorted snapshot of three. *)
Lemma move_on_sorted_three (a b c : Item) (ra rb rc : nat) (s : list (@Item K)) :
  getOrderedItems s = [(ra, a); (rb, b); (rc, c)] ->
  itemId a <> itemId c -> itemId b <> itemId c ->
  move generateKeyBetween (itemId a) (itemId c) s
  = [(Some (ra, a), generateKeyBetween (Some (itemOrder c)) None)].
Proof.
  intros Hsorted Hac Hbc. unfold move. rewrite Hsorted.
  assert (Hfrom : Js.findIndex (hasId (itemId a)) [(ra, a); (rb, b); (rc, c)] = 0%Z).
  { simpl. unfold hasId at 1, getItemId. simpl.
    now rewrite bool_decide_eq_true_2. }
  assert (Hto : Js.findIndex (hasId (itemId c)) [(ra, a); (rb, b); (rc, c)] = 2%Z).
  { simpl. unfold hasId, getItemId. simpl.
    rewrite (bool_decide_eq_false_2 _ Hac), (bool_decide_eq_false_2 _ Hbc).
    now rewrite bool_decide_eq_true_2. }
  rewrite Hfrom, Hto. reflexivity.
Qed.

(** C6, as the code has it.  On three items [a], [b], [c] with keys in
    that order, [move(a.id, c.id)] asks the package for a key above
    [c]'s key, with no upper bound.  When the package answers as its
    contract says, the moved item sorts last: the order becomes
    [b], [c], [a']. *)
Theorem move_first_onto_last (a b c : Item) (s : list (@Item K)) :
  s ≡ₚ [a; b; c] ->
  itemId a <> itemId c -> itemId b <> itemId c ->
  key_lt (itemOrder a) (itemOrder b) ->
  key_lt (itemOrder b) (itemOrder c) ->
  key_lt (itemOrder c) (generateKeyBetween (Some (itemOrder c)) None) ->
  exists r s',
    move generateKeyBetween (itemId a) (itemId c) s
    = [(Some (r, a), generateKeyBetween (Some (itemOrder c)) None)] /\
    s !! r = Some a /\
    perform (move generateKeyBetween (itemId a) (itemId c) s) s = Some s' /\
    (getOrderedItems s').*2
    = [b; c; mkItem (itemId a) (generateKeyBetween (Some (itemOrder c)) None)].
Proof.
  intros Hperm Hac Hbc Hab Hbc' Hck.
  pose proof (key_lt_trans _ _ _ Hab Hbc') as Hac'.
  pose proof (key_lt_trans _ _ _ Hbc' Hck) as Hbk.
  set (key := generateKeyBetween (Some (itemOrder c)) None) in *.
  apply Permutation_three in Hperm
    as [-> | [-> | [-> | [-> | [-> | ->]]]]].
  all: match goal with
       | |- context [move _ _ _ ?s] =>
           assert (Hsorted : exists ra rb rc,
                     getOrderedItems s = [(ra, a); (rb, b); (rc, c)])
             by (do 3 eexists; sort_eval; reflexivity)
       end.
  all: destruct Hsorted as (ra & rb & rc & Hsorted).
  all: exists ra.
  all: rewrite (move_on_sorted_three a b c ra rb rc _ Hsorted Hac Hbc).
  all: fold key.
  all: revert Hsorted; sort_eval; intros [= <- <- <-].
  all: eexists; split; [reflexivity|]; split; [reflexivity|].
  all: split; [reflexivity|].
  all: sort_eval; reflexivity.
Qed.

End MoveThree.

(** ** The helper on the sample collection *)

Lemma present_abc_1 : present 1 abc.
Proof. exists itemA. split; [apply list_elem_of_here | reflexivity]. Defined.

Lemma absent_abc_9 : ~ present 9 abc.
Proof.
  intros (it & Hin & Hid). unfold abc in Hin.
  repeat (apply elem_of_cons in Hin as [-> | Hin]; [discriminate Hid|]).
  now apply elem_of_nil in Hin.
Defined.

(** C3 fails on the sample collection: the keys that [getNewItemOrder],
    [move], [moveTo] and [insertBefore] produce are the package's two
    characters, with no separator and no suffix. *)
Lemma helper_keys_have_no_envelope :
  getNewItemOrder sampleKeyBetween abc = "a3" /\
  move sampleKeyBetween 1 3 abc = [(Some (0, itemA), "a3")] /\
  moveTo sampleKeyBetween 1 3 after abc = [(Some (0, itemA), "a3")] /\
  insertBefore sampleKeyBetween 2 None abc = [(Some (1, itemB), "a0")] /\
  hasEnvelope "a3" = false /\ hasEnvelope "a0" = false.
Proof. repeat split. Qed.

(** C6 fails on the sample collection: the key given to [itemA] is [a3],
    which the package returns for the bounds [(a2, null)]; it is above
    the key of [itemC], not below it, and the order becomes [itemB],
    [itemC], [itemA]. *)
Lemma moved_item_sorts_last :
  move sampleKeyBetween 1 3 abc = [(Some (0, itemA), "a3")] /\
  sampleKeyBetween (Some "a2") None = "a3" /\
  key_lt (itemOrder itemC) "a3" /\
  Js.lt "a3" (itemOrder itemC) = false /\
  perform (move sampleKeyBetween 1 3 abc) abc
  = Some [mkItem 1 "a3"; itemB; itemC] /\
  (getOrderedItems [mkItem 1 "a3"; itemB; itemC]).*2
  = [itemB; itemC; mkItem 1 "a3"].
Proof. repeat split. Qed.

(** C6 on the sample collection. *)
Lemma move_first_onto_last_witness :
  exists r s',
    move sampleKeyBetween 1 3 abc
    = [(Some (r, itemA), sampleKeyBetween (Some "a2") None)] /\
    abc !! r = Some itemA /\
    perform (move sampleKeyBetween 1 3 abc) abc = Some s' /\
    (getOrderedItems s').*2
    = [itemB; itemC; mkItem 1 (sampleKeyBetween (Some "a2") None)].
Proof.
  apply (move_first_onto_last sampleKeyBetween itemA itemB itemC abc).
  - reflexivity.
  - discriminate.
  - discriminate.
  - reflexivity.
  - reflexivity.
  - reflexivity.
Defined.

(** C7 on the sample collection: [insertBefore(b.id, undefined)] gives
    [itemB] the key [a0], the package's answer for [(null, null)].  The
    largest key of the other items, [a2], is not used as a bound; the new
    key is below it, and [itemB] does not sort last. *)
Theorem insertBefore_undefined_ignores_largest :
  insertBefore sampleKeyBetween 2 None abc
  = [(Some (1, itemB), sampleKeyBetween None None)] /\
  sampleKeyBetween None None = "a0" /\
  getLargestOrder [itemA; itemC] = Some "a2" /\
  key_lt "a0" (itemOrder itemC) /\
  perform (insertBefore sampleKeyBetween 2 None abc) abc
  = Some [itemA; mkItem 2 "a0"; itemC] /\
  (getOrderedItems [itemA; mkItem 2 "a0"; itemC]).*2
  = [itemA; mkItem 2 "a0"; itemC].
Proof. repeat split. Qed.

(** C8 on the sample collection: [moveTo] with a missing [fromId] makes
    no call, but [move('missing', c.id)] calls the hook once, with
    [undefined] for the item and the key the package gives above [a2]. *)
Theorem move_missing_calls_hook :
  move sampleKeyBetween 9 3 abc = [(None, "a3")] /\
  perform (move sampleKeyBetween 9 3 abc) abc = None /\
  moveTo sampleKeyBetween 9 3 before abc = [] /\
  moveTo sampleKeyBetween 9 3 after abc = [].
Proof. repeat split. Qed.


(** ** When the envelope keeps the key between its bounds *)

Lemma append_empty_r (s : string) : s +:+ "" = s.
Proof. induction s as [|c s IH]; simpl; [reflexivity | now rewrite IH]. Qed.

Lemma ascii_compare_refl (c : ascii) : Ascii.compare c c = Eq.
Proof. apply N.compare_refl. Qed.

(** A string is below each of its proper extensions. *)
Lemma key_lt_append (s t : string) : t <> "" -> key_lt s (s +:+ t).
Proof.
  intros Ht. unfold key_lt.
  induction s as [|c s IH]; simpl.
  - destruct t; [congruence | reflexivity].
  - now rewrite ascii_compare_refl.
Qed.

(** Two strings that differ at some position keep their order whatever
    is appended to them. *)
Lemma key_lt_diverge (x y u v : string) :
  key_lt x y -> String.prefix x y = false -> key_lt (x +:+ u) (y +:+ v).
Proof.
  unfold key_lt. revert y.
  induction x as [|a x IH]; intros [|b y]; simpl; try discriminate.
  destruct (Ascii.compare a b) eqn:Hab; try discriminate.
  - apply Ascii.compare_eq_iff in Hab as ->.
    destruct (ascii_dec b b) as [_|Hne]; [apply IH | congruence].
  - reflexivity.
Qed.

(** A key is its subkey followed by what [subkey] cuts off. *)
Lemma subkey_prefix (x sub : string) :
  subkey (Some x) = Some sub -> exists tail, x = sub +:+ tail.
Proof.
  intros Hsub.
  destruct (Nat.le_gt_cases (String.length x) 33) as [Hshort|Hlong].
  - rewrite subkey_short in Hsub by exact Hshort.
    injection Hsub as <-. exists "". now rewrite append_empty_r.
  - rewrite subkey_long in Hsub by exact Hlong.
    injection Hsub as <-.
    destruct (substring0_split (String.length x - 33) x) as (tail & Hx & _);
      [lia|].
    now exists tail.
Qed.

Section Betweenness.

Variable generateKeyBetween : option string -> option string -> string.
Variable values : nat -> N.

Lemma generate_unfold (a b : option string) :
  bothAndNotBelow a b = false ->
  generateFractionalIndexingKeyBetween generateKeyBetween values a b
  = Returned (generateKeyBetween (boundsUsed a b).1 (boundsUsed a b).2
              +:+ "0" +:+ postfix values randomSize).
Proof.
  intros Hok. unfold generateFractionalIndexingKeyBetween, boundsUsed.
  rewrite Hok.
  destruct a as [a|], b as [b|]; cbn [subkey];
    repeat match goal with
           | |- context [Nat.leb ?n ?m] => destruct (Nat.leb n m)
           end;
    cbn [isNull sameString andb negb fst snd];
    try reflexivity;
    match goal with
    | |- context [String.eqb ?x ?y] => destruct (String.eqb x y)
    end; reflexivity.
Qed.

(** X2.  Strict betweenness, where it holds.  Let the package keep its
    contract on the call that is made.  The returned key is below [b]
    when the package's answer is not a prefix of the upper bound it was
    given, and above [a] when the lower bound it was given is all of [a]
    or is not a prefix of the answer. *)
Theorem between_unless_prefix (a b : option string) :
  bothAndNotBelow a b = false ->
  let lo := (boundsUsed a b).1 in
  let hi := (boundsUsed a b).2 in
  let r := generateKeyBetween lo hi in
  above lo r -> below r hi ->
  exists key,
    generateFractionalIndexingKeyBetween generateKeyBetween values a b
    = Returned key /\
    ((forall h, hi = Some h -> String.prefix r h = false) -> below key b) /\
    ((forall l, lo = Some l -> a = Some l \/ String.prefix l r = false) ->
     above a key).
Proof.
  intros Hok lo hi r Hlo Hhi.
  eexists. split; [apply (generate_unfold a b Hok)|].
  fold lo hi r.
  assert (Hsuffix : "0" +:+ postfix values randomSize <> "") by discriminate.
  split.
  - intros Hprefix. destruct b as [b|]; [|exact I]. simpl.
    assert (Hhi' : exists h tail, hi = Some h /\ b = h +:+ tail).
    { subst hi. unfold boundsUsed.
      destruct (sameString _ _).
      - exists b, "". now rewrite append_empty_r.
      - destruct (subkey (Some b)) as [sb|] eqn:Hsb;
          [|unfold subkey in Hsb; destruct (Nat.leb _ _); discriminate].
        destruct (subkey_prefix b sb Hsb) as (tail & ->).
        now exists sb, tail. }
    destruct Hhi' as (h & tail & Hh & ->).
    rewrite Hh in Hhi. simpl in Hhi.
    apply key_lt_diverge; [exact Hhi | now apply Hprefix].
  - intros Hprefix. destruct a as [a|]; [|exact I]. simpl.
    assert (Hlo' : exists l tail, lo = Some l /\ a = l +:+ tail).
    { subst lo. unfold boundsUsed.
      destruct (sameString _ _).
      - exists a, "". now rewrite append_empty_r.
      - destruct (subkey (Some a)) as [sa|] eqn:Hsa;
          [|unfold subkey in Hsa; destruct (Nat.leb _ _); discriminate].
        destruct (subkey_prefix a sa Hsa) as (tail & ->).
        now exists sa, tail. }
    destruct Hlo' as (l & tail & Hl & Ha).
    rewrite Hl in Hlo. simpl in Hlo.
    destruct (Hprefix l Hl) as [Hwhole | Hno].
    + injection Hwhole as ->.
      apply (key_lt_trans _ r); [exact Hlo | now apply key_lt_append].
    + rewrite Ha. now apply key_lt_diverge.
Qed.

End Betweenness.

(** ** The sorted snapshot is sorted *)

Lemma key_ge_refl (a : string) : key_ge a a.
Proof. now right. Qed.

Lemma key_ge_trans (a b c : string) : key_ge a b -> key_ge b c -> key_ge a c.
Proof.
  intros [Hba | ->] [Hcb | ->].
  - left. now apply (key_lt_trans c b a).
  - now left.
  - now left.
  - now right.
Qed.

Lemma key_ge_lt_trans (a b c : string) : key_ge b a -> key_lt b c -> key_lt a c.
Proof.
  intros [Hab | ->] Hbc; [now apply (key_lt_trans a b c) | exact Hbc].
Qed.

Section Sorting.

Context {K : Type}.
Implicit Types (x y z : T (K := K)) (xs : list (T (K := K))) (s : list (@Item K)).

Lemma compareOrder_after_inv x y :
  (0 <? compareOrder y x)%Z = true -> key_lt (getItemOrder x) (getItemOrder y).
Proof.
  unfold compareOrder, Js.gt, Js.lt.
  destruct (String.ltb (getItemOrder x) (getItemOrder y)) eqn:Hxy.
  - intros _. now apply ltb_key_lt.
  - destruct (String.ltb (getItemOrder y) (getItemOrder x)); discriminate.
Qed.

Lemma compareOrder_not_after_inv x y :
  (0 <? compareOrder y x)%Z = false -> inOrder y x.
Proof.
  unfold compareOrder, Js.gt, Js.lt, inOrder.
  destruct (String.ltb (getItemOrder x) (getItemOrder y)) eqn:Hxy.
  - discriminate.
  - intros _. apply ge_key_ge. unfold Js.ge. now rewrite Hxy.
Qed.

Lemma inOrder_trans x y z : inOrder x y -> inOrder y z -> inOrder x z.
Proof. unfold inOrder. intros Hxy Hyz. now apply (key_ge_trans _ _ _ Hyz Hxy). Qed.

Lemma insertSorted_sorted x xs :
  StronglySorted inOrder xs ->
  StronglySorted inOrder (Js.insertSorted compareOrder x xs).
Proof.
  induction 1 as [|y xs Hsorted IH Hall]; simpl.
  - repeat constructor.
  - destruct (0 <? compareOrder y x)%Z eqn:Hcmp.
    + apply compareOrder_after_inv in Hcmp.
      assert (Hxy : inOrder x y) by (now left).
      constructor; [now constructor|].
      constructor; [exact Hxy|].
      eapply Forall_impl; [exact Hall|].
      intros z Hyz. now apply (inOrder_trans x y z).
    + apply compareOrder_not_after_inv in Hcmp.
      constructor; [exact IH|].
      rewrite insertSorted_Permutation. now constructor.
Qed.

(** [getOrderedItems] is in ascending key order. *)
Lemma getOrderedItems_sorted s : StronglySorted inOrder (getOrderedItems s).
Proof.
  unfold getOrderedItems, Js.sort.
  assert (Hgen : forall xs acc,
    StronglySorted inOrder acc ->
    StronglySorted inOrder
      (fold_left (fun acc x => Js.insertSorted compareOrder x acc) xs acc)).
  { induction xs as [|x xs IH]; intros acc Hacc; simpl; [exact Hacc|].
    apply IH. now apply insertSorted_sorted. }
  apply Hgen. constructor.
Qed.

Lemma sorted_last xs z x :
  StronglySorted inOrder xs -> last xs = Some z -> x ∈ xs ->
  key_ge (getItemOrder z) (getItemOrder x).
Proof.
  induction 1 as [|y xs Hsorted IH Hall]; intros Hlast Hin.
  - now apply elem_of_nil in Hin.
  - destruct xs as [|y' xs].
    + apply list_elem_of_singleton in Hin as ->.
      injection Hlast as ->. apply key_ge_refl.
    + rewrite last_cons_cons in Hlast.
      apply elem_of_cons in Hin as [-> | Hin]; [|now apply IH].
      rewrite Forall_forall in Hall. apply (Hall z).
      apply last_Some in Hlast as (l' & Hl'). rewrite Hl'.
      apply elem_of_app. right. apply list_elem_of_here.
Qed.

Lemma sorted_head xs z x :
  StronglySorted inOrder xs -> head xs = Some z -> x ∈ xs ->
  key_ge (getItemOrder x) (getItemOrder z).
Proof.
  intros Hsorted Hhead Hin.
  destruct xs as [|y xs]; [discriminate|]. injection Hhead as ->.
  apply StronglySorted_inv in Hsorted as [_ Hall].
  apply elem_of_cons in Hin as [-> | Hin]; [apply key_ge_refl|].
  rewrite Forall_forall in Hall. now apply (Hall x).
Qed.

Lemma getLargestOrder_None s : getLargestOrder s = None <-> s = [].
Proof.
  unfold getLargestOrder.
  destruct (last (getOrderedItems s)) as [z|] eqn:Hlast; simpl.
  - split; [discriminate|]. intros ->. discriminate.
  - split; [|reflexivity]. intros _.
    apply last_None in Hlast.
    apply (f_equal length) in Hlast.
    unfold getOrderedItems in Hlast.
    rewrite (Permutation_length (sort_Permutation compareOrder (getItems s)))
      in Hlast.
    unfold getItems in Hlast. rewrite length_imap in Hlast.
    now destruct s.
Qed.

Lemma getLargestOrder_Some s (m : string) :
  getLargestOrder s = Some m ->
  (exists it : Item, it ∈ s /\ itemOrder it = m) /\
  forall it : Item, it ∈ s -> key_ge m (itemOrder it).
Proof.
  unfold getLargestOrder. intros Hm.
  destruct (last (getOrderedItems s)) as [[r itm]|] eqn:Hlast;
    [|discriminate].
  simpl in Hm. injection Hm as <-. split.
  - exists itm. split; [|reflexivity].
    apply last_Some in Hlast as (l' & Hl').
    assert (Hin : (r, itm) ∈ getOrderedItems s)
      by (rewrite Hl'; apply elem_of_app; right; apply list_elem_of_here).
    unfold getOrderedItems in Hin. rewrite sort_Permutation in Hin.
    unfold getItems in Hin.
    apply elem_of_lookup_imap in Hin as (r' & it' & [= -> ->] & Hr).
    now apply list_elem_of_lookup_2 in Hr.
  - intros it Hin.
    apply list_elem_of_lookup_1 in Hin as (r' & Hr').
    apply (sorted_last (getOrderedItems s) (r, itm) (r', it));
      [apply getOrderedItems_sorted | exact Hlast |].
    unfold getOrderedItems. rewrite sort_Permutation.
    unfold getItems. now apply (elem_of_lookup_imap_2 _ s it r').
Qed.

(** X4.  [getLargestOrder] is [null] for the empty collection only,
    and otherwise a key of the collection that no key is above. *)
Theorem getLargestOrder_is_largest s :
  (getLargestOrder s = None <-> s = []) /\
  forall m, getLargestOrder s = Some m ->
    (exists it : Item, it ∈ s /\ itemOrder it = m) /\
    forall it : Item, it ∈ s -> key_ge m (itemOrder it).
Proof.
  split; [apply getLargestOrder_None | apply getLargestOrder_Some].
Qed.

(** X5.  [getSmallestOrder] is a key of the collection that no key is
    below. *)
Theorem getSmallestOrder_is_smallest s (m : string) :
  getSmallestOrder s = Some m ->
  (exists it : Item, it ∈ s /\ itemOrder it = m) /\
  forall it : Item, it ∈ s -> key_ge (itemOrder it) m.
Proof.
  unfold getSmallestOrder. intros Hm.
  destruct (head (getOrderedItems s)) as [[r itm]|] eqn:Hhead; [|discriminate].
  simpl in Hm. injection Hm as <-. split.
  - exists itm. split; [|reflexivity].
    assert (Hin : (r, itm) ∈ getOrderedItems s).
    { destruct (getOrderedItems s) as [|y xs]; [discriminate|].
      injection Hhead as ->. apply list_elem_of_here. }
    unfold getOrderedItems in Hin. rewrite sort_Permutation in Hin.
    unfold getItems in Hin.
    apply elem_of_lookup_imap in Hin as (r' & it' & [= -> ->] & Hr).
    now apply list_elem_of_lookup_2 in Hr.
  - intros it Hin.
    apply list_elem_of_lookup_1 in Hin as (r' & Hr').
    apply (sorted_head (getOrderedItems s) (r, itm) (r', it));
      [apply getOrderedItems_sorted | exact Hhead |].
    unfold getOrderedItems. rewrite sort_Permutation.
    unfold getItems. now apply (elem_of_lookup_imap_2 _ s it r').
Qed.

Variable generateKeyBetween : option string -> option string -> string.


End Sorting.

(** X3.  [getOrderedItems] holds the items of the collection, each
    once, in ascending key order. *)
Theorem getOrderedItems_sorted_permutation {K : Type} (s : list (@Item K)) :
  getOrderedItems s ≡ₚ getItems s /\
  StronglySorted inOrder (getOrderedItems s).
Proof.
  split; [apply sort_Permutation | apply getOrderedItems_sorted].
Qed.

(** ** More runs on the sample data *)

(** X2 between [a0] and [a1]: the package answers [a0V], which is a
    prefix of neither bound, and the enveloped key stays between them. *)
Lemma between_unless_prefix_witness :
  exists key,
    generateFractionalIndexingKeyBetween sampleKeyBetween allSixty
      (Some "a0") (Some "a1") = Returned key /\
    key_lt "a0" key /\ key_lt key "a1".
Proof.
  destruct (between_unless_prefix sampleKeyBetween allSixty
              (Some "a0") (Some "a1") eq_refl eq_refl eq_refl)
    as (key & Hkey & Hbelow & Habove).
  exists key. split; [exact Hkey|]. split.
  - apply Habove. intros l Hl. left. exact Hl.
  - apply Hbelow. intros h Hh. injection Hh as <-. reflexivity.
Defined.

(** X5 on the sample collection. *)
Lemma getSmallestOrder_is_smallest_witness :
  getSmallestOrder abc = Some "a0" /\
  (exists it : Item, it ∈ abc /\ itemOrder it = "a0") /\
  forall it : Item, it ∈ abc -> key_ge (itemOrder it) "a0".
Proof.
  split; [reflexivity|].
  exact (getSmallestOrder_is_smallest abc "a0" eq_refl).
Defined.


(** ** Where a reordered item lands *)

Lemma key_lt_ge_trans (a b c : string) : key_lt a b -> key_ge c b -> key_lt a c.
Proof.
  intros Hab [Hbc | ->]; [now apply (key_lt_trans a b c) | exact Hab].
Qed.

Lemma index_of_nat {A} (xs : list A) (n : nat) :
  Js.index xs (Z.of_nat n) = xs !! n.
Proof.
  unfold Js.index.
  destruct (Z.ltb_spec (Z.of_nat n) 0) as [Hneg|_]; [lia|].
  now rewrite Nat2Z.id.
Qed.

(** An index at which something is read is a position of the array. *)
Lemma index_Some_nat {A} (xs : list A) (i : Z) (x : A) :
  Js.index xs i = Some x -> exists n, i = Z.of_nat n /\ xs !! n = Some x.
Proof.
  unfold Js.index. destruct (Z.ltb_spec i 0) as [|Hpos]; [discriminate|].
  intros Hx. exists (Z.to_nat i). split; [lia | exact Hx].
Qed.

Section Placement.

Context {K : Type} `{EqDecision K}.
Variable generateKeyBetween : option string -> option string -> string.

Implicit Types (x y t : T (K := K)) (items : list (T (K := K)))
  (s : list (@Item K)).

Lemma sorted_lookup items (i j : nat) x y :
  StronglySorted inOrder items -> i <= j ->
  items !! i = Some x -> items !! j = Some y -> inOrder x y.
Proof.
  intros Hsorted. revert i j.
  induction Hsorted as [|z items Hsorted IH Hall]; intros i j Hij Hi Hj.
  - discriminate.
  - destruct i as [|i], j as [|j]; simpl in *; try lia.
    + injection Hi as ->. injection Hj as ->. apply key_ge_refl.
    + injection Hi as ->. rewrite Forall_forall in Hall.
      apply Hall. now apply list_elem_of_lookup_2 in Hj.
    + apply (IH i j); [lia | exact Hi | exact Hj].
Qed.

(** A key between the target's predecessor and the target lands at the
    target's position. *)
Lemma splitsAt_before items (n : nat) t (key : string) :
  StronglySorted inOrder items -> items !! n = Some t ->
  above (orderOrNull (Js.index items (Z.of_nat n - 1))) key ->
  key_lt key (getItemOrder t) ->
  splitsAt items n key.
Proof.
  intros Hsorted Ht Habove Hbelow. split.
  - intros j x Hj Hx.
    destruct n as [|m]; [lia|].
    replace (Z.of_nat (S m) - 1)%Z with (Z.of_nat m) in Habove by lia.
    rewrite index_of_nat in Habove.
    destruct (items !! m) as [p|] eqn:Hp.
    + simpl in Habove.
      apply (key_ge_lt_trans _ (getItemOrder p)); [|exact Habove].
      apply (sorted_lookup items j m x p Hsorted); [lia | exact Hx | exact Hp].
    + apply lookup_ge_None in Hp. apply lookup_lt_Some in Ht. lia.
  - intros j x Hj Hx.
    apply (key_lt_ge_trans _ (getItemOrder t)); [exact Hbelow|].
    apply (sorted_lookup items n j t x Hsorted Hj Ht Hx).
Qed.

(** A key between the target and the target's successor lands behind the
    target. *)
Lemma splitsAt_after items (n : nat) t (key : string) :
  StronglySorted inOrder items -> items !! n = Some t ->
  key_lt (getItemOrder t) key ->
  below key (orderOrNull (Js.index items (Z.of_nat n + 1))) ->
  splitsAt items (S n) key.
Proof.
  intros Hsorted Ht Habove Hbelow. split.
  - intros j x Hj Hx.
    apply (key_ge_lt_trans _ (getItemOrder t)); [|exact Habove].
    apply (sorted_lookup items j n x t Hsorted); [lia | exact Hx | exact Ht].
  - intros j x Hj Hx.
    replace (Z.of_nat n + 1)%Z with (Z.of_nat (S n)) in Hbelow by lia.
    rewrite index_of_nat in Hbelow.
    destruct (items !! S n) as [q|] eqn:Hq.
    + simpl in Hbelow.
      apply (key_lt_ge_trans _ (getItemOrder q)); [exact Hbelow|].
      apply (sorted_lookup items (S n) j q x Hsorted Hj Hq Hx).
    + apply lookup_ge_None in Hq. apply lookup_lt_Some in Hx. lia.
Qed.

(** The position at which [findIndex] finds an identifier that is in
    the collection. *)
Lemma present_position (k : K) s :
  present k s ->
  exists (n r : nat) (it : Item),
    Js.findIndex (hasId k) (getOrderedItems s) = Z.of_nat n /\
    getOrderedItems s !! n = Some (r, it) /\
    s !! r = Some it /\ itemId it = k.
Proof.
  intros Hk.
  destruct (present_findIndex k s Hk) as (r & it & Hr & Hit & Hidx).
  destruct (index_Some_nat _ _ _ Hidx) as (n & Hn & Hlook).
  now exists n, r, it.
Qed.

End Placement.

Section PlacementMore.

Context {K : Type} `{EqDecision K}.
Variable generateKeyBetween : option string -> option string -> string.

Implicit Types (s : list (@Item K)).

Lemma findIndex_ext {A} (p q : A -> bool) (xs : list A) :
  (forall x, p x = q x) -> Js.findIndex p xs = Js.findIndex q xs.
Proof.
  intros Hpq. induction xs as [|x xs IH]; simpl; [reflexivity|].
  now rewrite Hpq, IH.
Qed.

(** Looking for [beforeId] when it is an identifier looks for that
    identifier. *)
Lemma findIndex_before_Some (k : K) (items : list (T (K := K))) :
  Js.findIndex (fun i => bool_decide (Some (getItemId i) = Some k)) items
  = Js.findIndex (hasId k) items.
Proof.
  apply findIndex_ext. intros x. unfold hasId.
  apply bool_decide_ext. split; [now intros [= ->] | now intros ->].
Qed.


(** X10.  [move] onto an identifier that is not in the collection still
    gives the moved item a new key: the one the package returns for
    [(null, null)], whatever the keys of the collection are. *)
Theorem move_missing_target (fromId toId : K) s :
  present fromId s -> ~ present toId s ->
  exists (r : nat) (it : Item),
    s !! r = Some it /\ itemId it = fromId /\
    move generateKeyBetween fromId toId s
    = [(Some (r, it), generateKeyBetween None None)].
Proof.
  intros Hfrom Hto.
  destruct (present_position fromId s Hfrom)
    as (nf & r & it & Hnf & Hlookf & Hr & Hit).
  exists r, it. split; [exact Hr|]. split; [exact Hit|].
  unfold move. cbv zeta.
  rewrite Hnf, (absent_findIndex toId s Hto), index_of_nat.
  destruct (Z.ltb_spec (Z.of_nat nf) (-1)) as [Hneg|_]; [lia|].
  rewrite !index_negative by lia.
  unfold T in *. rewrite Hlookf. reflexivity.
Qed.

End PlacementMore.

(** ** The random suffix *)

Lemma list_ascii_of_append (s t : string) :
  list_ascii_of_string (s +:+ t)
  = list_ascii_of_string s ++ list_ascii_of_string t.
Proof. induction s as [|c s IH]; simpl; [reflexivity | now rewrite IH]. Qed.

(** [chars.charAt(k)] for an index inside [chars]: one character of
    [chars], found again at index [k]. *)
Lemma charAt_chars (k : nat) :
  k < String.length chars ->
  exists c,
    Js.charAt chars k = String c "" /\
    In c (list_ascii_of_string chars) /\
    String.index 0 (String c "") chars = Some k.
Proof.
  intros Hk. simpl in Hk.
  do 61 (destruct k as [|k];
         [eexists; split; [reflexivity|]; split;
          [simpl; repeat first [left; reflexivity | right] | reflexivity]|]).
  lia.
Qed.

Lemma zero_not_in_chars : ~ In "0"%char (list_ascii_of_string chars).
Proof.
  simpl. intros Hin.
  repeat (destruct Hin as [Hin | Hin]; [discriminate Hin|]).
  exact Hin.
Qed.

Lemma append_assoc (s t u : string) : (s +:+ t) +:+ u = s +:+ t +:+ u.
Proof. induction s as [|c s IH]; simpl; [reflexivity | now rewrite IH]. Qed.


Section Suffix.

Variable generateKeyBetween : option string -> option string -> string.

(** The index into [chars] that byte [i] of [values] selects. *)
Let pick (values : nat -> N) (i : nat) : nat :=
  N.to_nat (values i mod N.of_nat (String.length chars)).

Lemma pick_lt (values : nat -> N) (i : nat) :
  pick values i < String.length chars.
Proof.
  unfold pick.
  pose proof (N.mod_lt (values i) (N.of_nat (String.length chars))) as Hlt.
  simpl in *. lia.
Qed.

(** The loop appends to what it was given. *)
Lemma postfix_loop_acc (values : nat -> N) (i n : nat) (result : string) :
  postfix_loop values i n result = result +:+ postfix_loop values i n "".
Proof.
  revert i result. induction n as [|n IH]; intros i result;
    cbn [postfix_loop].
  - now rewrite append_empty_r.
  - rewrite IH. rewrite (IH (S i) ("" +:+ _)).
    cbn [String.append]. now rewrite append_assoc.
Qed.

Lemma postfix_loop_S (values : nat -> N) (i n : nat) :
  postfix_loop values i (S n) ""
  = Js.charAt chars (pick values i) +:+ postfix_loop values (S i) n "".
Proof. cbn [postfix_loop]. now rewrite postfix_loop_acc. Qed.

Lemma postfix_loop_drawn (values : nat -> N) (i n : nat) :
  drawnFrom chars (postfix_loop values i n "").
Proof.
  revert i. induction n as [|n IH]; intros i.
  - constructor.
  - rewrite postfix_loop_S.
    destruct (charAt_chars _ (pick_lt values i)) as (c & -> & Hc & _).
    constructor; [exact Hc | apply IH].
Qed.

(** X11.  The suffix has the length asked for and holds characters of
    [chars] only; the separator [0] is none of them, so neither the
    suffix nor a returned key ends with [0]. *)
Theorem postfix_drawn_from_chars (values : nat -> N) (n : nat) :
  String.length (postfix values n) = n /\
  drawnFrom chars (postfix values n) /\
  ~ In "0"%char (list_ascii_of_string (postfix values n)).
Proof.
  split; [apply length_postfix|].
  assert (Hdrawn : drawnFrom chars (postfix values n))
    by apply postfix_loop_drawn.
  split; [exact Hdrawn|].
  intros Hzero. unfold drawnFrom in Hdrawn. rewrite Forall_forall in Hdrawn.
  apply zero_not_in_chars. apply Hdrawn. now apply list_elem_of_In.
Qed.



(** X13.  The subkey of a returned key is the package's answer: what
    [subkey] cuts off is exactly the separator and the suffix.  This
    needs the answer not to be empty. *)
Theorem subkey_of_generated (values : nat -> N) (a b : option string)
    (key : string) :
  generateFractionalIndexingKeyBetween generateKeyBetween values a b
  = Returned key ->
  generateKeyBetween (boundsUsed a b).1 (boundsUsed a b).2 <> "" ->
  subkey (Some key)
  = Some (generateKeyBetween (boundsUsed a b).1 (boundsUsed a b).2) /\
  String.length key
  = String.length (generateKeyBetween (boundsUsed a b).1 (boundsUsed a b).2)
    + 33.
Proof.
  intros Hkey Hanswer.
  destruct (bothAndNotBelow a b) eqn:Hok.
  - unfold generateFractionalIndexingKeyBetween in Hkey.
    rewrite Hok in Hkey. discriminate.
  - rewrite (generate_unfold generateKeyBetween values a b Hok) in Hkey.
    injection Hkey as <-. split.
    + apply subkey_envelope; [exact Hanswer | apply length_postfix].
    + rewrite length_append. cbn [String.append String.length].
      rewrite length_postfix. reflexivity.
Qed.

End Suffix.

(** ** Sorting what is sorted *)

Section SortedInput.

Context {K : Type}.
Implicit Types (x y : T (K := K)) (xs acc : list (T (K := K)))
  (s : list (@Item K)).

(** An item that no item of the sorted part is above goes to its end. *)
Lemma insertSorted_last x acc :
  Forall (fun y => inOrder y x) acc ->
  Js.insertSorted compareOrder x acc = acc ++ [x].
Proof.
  induction 1 as [|y acc Hyx Hall IH]; simpl; [reflexivity|].
  destruct (0 <? compareOrder y x)%Z eqn:Hcmp.
  - apply compareOrder_after_inv in Hcmp.
    destruct Hyx as [Hlt | Heq].
    + now apply key_lt_asym in Hlt.
    + rewrite Heq in Hcmp. now apply key_lt_irrefl in Hcmp.
  - now rewrite IH.
Qed.

Lemma sorted_app_cross acc xs x y :
  StronglySorted inOrder (acc ++ xs) -> y ∈ acc -> x ∈ xs -> inOrder y x.
Proof.
  induction acc as [|z acc IH]; simpl; intros Hsorted Hy Hx.
  - now apply elem_of_nil in Hy.
  - apply StronglySorted_inv in Hsorted as [Hsorted Hall].
    apply elem_of_cons in Hy as [-> | Hy]; [|now apply IH].
    rewrite Forall_forall in Hall. apply Hall.
    apply elem_of_app. now right.
Qed.

Lemma sort_fold_sorted xs acc :
  StronglySorted inOrder (acc ++ xs) ->
  fold_left (fun acc x => Js.insertSorted compareOrder x acc) xs acc
  = acc ++ xs.
Proof.
  revert acc. induction xs as [|x xs IH]; intros acc Hsorted; simpl.
  - now rewrite app_nil_r.
  - rewrite insertSorted_last.
    + rewrite IH; rewrite <- app_assoc; [reflexivity | exact Hsorted].
    + apply Forall_forall. intros y Hy.
      apply (sorted_app_cross acc (x :: xs) x y Hsorted Hy).
      apply list_elem_of_here.
Qed.

(** X14.  When the provider's items already come in ascending key order
    (equal keys allowed), [getOrderedItems] returns them in that very
    order: items with equal keys keep their places.  Sorting the result
    of [getOrderedItems] once more changes nothing. *)
Theorem getOrderedItems_keeps_sorted s :
  (StronglySorted inOrder (getItems s) -> getOrderedItems s = getItems s) /\
  Js.sort compareOrder (getOrderedItems s) = getOrderedItems s.
Proof.
  split.
  - intros Hsorted. unfold getOrderedItems, Js.sort.
    now apply (sort_fold_sorted (getItems s) []).
  - unfold Js.sort at 1.
    apply (sort_fold_sorted (getOrderedItems s) []).
    apply getOrderedItems_sorted.
Qed.

End SortedInput.

(** ** Further runs on the sample collection *)

Lemma present_abc_3 : present 3 abc.
Proof.
  exists itemC. split; [|reflexivity].
  apply list_elem_of_further, list_elem_of_further, list_elem_of_here.
Defined.


(** X10 on the sample collection: item 1 is there, item 9 is not. *)
Lemma move_missing_target_witness :
  exists (r : nat) (it : Item),
    abc !! r = Some it /\ itemId it = 1 /\
    move sampleKeyBetween 1 9 abc
    = [(Some (r, it), sampleKeyBetween None None)].
Proof.
  exact (move_missing_target sampleKeyBetween 1 9 abc
           present_abc_1 absent_abc_9).
Defined.


(** X13 on the key returned for no lower bound and the upper bound
    [a00V]. *)
Lemma subkey_of_generated_witness :
  subkey (Some ("a0" +:+ "0" +:+ "zzzzzzzzzzzzzzzzzzzzzzzzzzzzzzzz"))
  = Some (sampleKeyBetween (boundsUsed None (Some "a00V")).1
            (boundsUsed None (Some "a00V")).2) /\
  String.length ("a0" +:+ "0" +:+ "zzzzzzzzzzzzzzzzzzzzzzzzzzzzzzzz")
  = String.length (sampleKeyBetween (boundsUsed None (Some "a00V")).1
                     (boundsUsed None (Some "a00V")).2) + 33.
Proof.
  apply (subkey_of_generated sampleKeyBetween allSixty None (Some "a00V")).
  - reflexivity.
  - discriminate.
Defined.

(** X14 on the sample collection, whose items come in key order. *)
Lemma getOrderedItems_keeps_sorted_witness :
  StronglySorted inOrder (getItems abc) /\
  getOrderedItems abc = getItems abc.
Proof.
  assert (Hsorted : StronglySorted inOrder (getItems abc)).
  { repeat constructor. }
  split; [exact Hsorted|].
  exact (proj1 (getOrderedItems_keeps_sorted abc) Hsorted).
Defined.

(** ** The order after a write *)

Lemma key_ge_antisym (a b : string) : key_ge a b -> key_ge b a -> a = b.
Proof.
  intros [Hba | ->] [Hab | Heq]; try reflexivity; try (now symmetry).
  now apply key_lt_asym in Hba.
Qed.

Lemma elem_of_take_pos {A} (xs : list A) (c : nat) (x : A) :
  x ∈ take c xs -> exists j, j < c /\ xs !! j = Some x.
Proof.
  intros Hin. apply list_elem_of_lookup_1 in Hin as (j & Hj).
  apply lookup_take_Some in Hj as [Hj Hlt]. now exists j.
Qed.

Lemma elem_of_drop_pos {A} (xs : list A) (c : nat) (x : A) :
  x ∈ drop c xs -> exists j, c <= j /\ xs !! j = Some x.
Proof.
  intros Hin. apply list_elem_of_lookup_1 in Hin as (j & Hj).
  rewrite lookup_drop in Hj. exists (c + j). split; [lia | exact Hj].
Qed.

Section AfterWrite.

Context {K : Type}.
Implicit Types (x y m : T (K := K)) (items : list (T (K := K)))
  (s : list (@Item K)).

Lemma strict_lookup items (i j : nat) x y :
  StronglySorted strictlyBefore items -> i < j ->
  items !! i = Some x -> items !! j = Some y -> strictlyBefore x y.
Proof.
  intros Hsorted Hij Hi Hj.
  rewrite <- (take_drop j items) in Hsorted.
  apply (StronglySorted_app_1_elem_of _ _ _ x y Hsorted).
  - apply (list_elem_of_lookup_2 _ i). now rewrite lookup_take_lt.
  - apply (list_elem_of_lookup_2 _ 0). rewrite lookup_drop.
    now rewrite Nat.add_0_r.
Qed.

Lemma strict_inOrder items :
  StronglySorted strictlyBefore items -> StronglySorted inOrder items.
Proof.
  induction 1 as [|x items Hsorted IH Hall]; constructor; [exact IH|].
  eapply Forall_impl; [exact Hall|]. intros y Hxy. now left.
Qed.

(** In strictly ascending order a key names its item. *)
Lemma strict_key_inj items x y :
  StronglySorted strictlyBefore items -> x ∈ items -> y ∈ items ->
  getItemOrder x = getItemOrder y -> x = y.
Proof.
  intros Hsorted Hx Hy Hkey.
  apply list_elem_of_lookup_1 in Hx as (i & Hi).
  apply list_elem_of_lookup_1 in Hy as (j & Hj).
  destruct (Nat.lt_trichotomy i j) as [Hlt | [-> | Hgt]].
  - pose proof (strict_lookup items i j x y Hsorted Hlt Hi Hj) as Hxy.
    unfold strictlyBefore in Hxy. rewrite Hkey in Hxy.
    now apply key_lt_irrefl in Hxy.
  - congruence.
  - pose proof (strict_lookup items j i y x Hsorted Hgt Hj Hi) as Hyx.
    unfold strictlyBefore in Hyx. rewrite Hkey in Hyx.
    now apply key_lt_irrefl in Hyx.
Qed.

(** Writing a key changes one entry of what [getItems] returns. *)
Lemma getItems_setItemOrder s (r : nat) (it : Item) (key : string) :
  s !! r = Some it ->
  getItems (setItemOrder (r, it) key s)
  = <[r := (r, mkItem (itemId it) key)]> (getItems s).
Proof.
  intros Hr. apply list_eq. intros j.
  unfold getItems, setItemOrder. cbn [fst snd].
  rewrite list_lookup_imap.
  destruct (decide (j = r)) as [-> | Hne].
  - rewrite list_lookup_alter_eq, Hr.
    rewrite list_lookup_insert_eq; [reflexivity|].
    rewrite length_imap. now apply lookup_lt_Some in Hr.
  - rewrite list_lookup_alter_ne by congruence.
    rewrite list_lookup_insert_ne by congruence.
    now rewrite list_lookup_imap.
Qed.

(** After the write the snapshot holds the new item and the old ones
    but for the one written. *)
Lemma getOrderedItems_after_write s (r nf : nat) (it : Item) (key : string) :
  getOrderedItems s !! nf = Some (r, it) ->
  getOrderedItems (setItemOrder (r, it) key s)
  ≡ₚ (r, mkItem (itemId it) key) :: delete nf (getOrderedItems s).
Proof.
  intros Hnf.
  assert (Hr : s !! r = Some it).
  { apply list_elem_of_lookup_2 in Hnf.
    unfold getOrderedItems in Hnf. rewrite sort_Permutation in Hnf.
    unfold getItems in Hnf.
    now apply elem_of_lookup_imap in Hnf as (r' & it' & [= -> ->] & Hr). }
  assert (Hget : getItems s !! r = Some (r, it)).
  { unfold getItems. now rewrite list_lookup_imap, Hr. }
  unfold getOrderedItems at 1.
  rewrite sort_Permutation, (getItems_setItemOrder s r it key Hr).
  rewrite insert_take_drop by (now apply lookup_lt_Some in Hget).
  rewrite <- Permutation_middle. constructor.
  rewrite <- delete_take_drop.
  apply (Permutation_cons_inv (a := (r, it))).
  rewrite <- (delete_Permutation _ _ _ Hget).
  rewrite <- (delete_Permutation _ _ _ Hnf).
  symmetry. apply sort_Permutation.
Qed.

(** Taking the written item out and putting the new one where its key
    belongs gives a strictly ascending list again. *)
Lemma relocate_sorted items (nf n : nat) m m' :
  StronglySorted strictlyBefore items -> items !! nf = Some m ->
  splitsAt items n (getItemOrder m') ->
  StronglySorted strictlyBefore (relocate nf n m' items).
Proof.
  intros Hsorted Hnf [Hlow Hhigh].
  assert (Hlen : nf < length items) by now apply lookup_lt_Some in Hnf.
  assert (Hsplit : items = take nf items ++ m :: drop (S nf) items)
    by now rewrite take_drop_middle.
  assert (Hrest : delete nf items = take nf items ++ drop (S nf) items)
    by apply delete_take_drop.
  assert (Htake : forall c, StronglySorted strictlyBefore (take c items)).
  { intros c. rewrite <- (take_drop c items) in Hsorted.
    now apply StronglySorted_app_1_l in Hsorted. }
  assert (Hdrop : forall c, StronglySorted strictlyBefore (drop c items)).
  { intros c. rewrite <- (take_drop c items) in Hsorted.
    now apply StronglySorted_app_1_r in Hsorted. }
  unfold relocate. cbv zeta. rewrite Hrest.
  destruct (Nat.ltb_spec nf n) as [Hfwd | Hback].
  - (* the item moves towards the end *)
    rewrite take_app_ge, drop_app_ge by (rewrite length_take; lia).
    rewrite length_take, Nat.min_l by lia.
    set (c := n - 1 - nf).
    rewrite <- app_assoc.
    apply StronglySorted_app_2; [|apply Htake|].
    + intros x1 x2 Hx1 Hx2.
      apply elem_of_take_pos in Hx1 as (j1 & Hj1 & Hx1).
      apply elem_of_app in Hx2 as [Hx2 | Hx2].
      * apply elem_of_take_pos in Hx2 as (j2 & Hj2 & Hx2).
        rewrite lookup_drop in Hx2.
        apply (strict_lookup items j1 (S nf + j2) x1 x2 Hsorted);
          [lia | exact Hx1 | exact Hx2].
      * apply elem_of_cons in Hx2 as [-> | Hx2].
        -- apply (Hlow j1 x1); [lia | exact Hx1].
        -- apply elem_of_drop_pos in Hx2 as (j2 & Hj2 & Hx2).
           rewrite lookup_drop in Hx2.
           apply (strict_lookup items j1 (S nf + j2) x1 x2 Hsorted);
             [lia | exact Hx1 | exact Hx2].
    + apply StronglySorted_app_2.
      * intros x1 x2 Hx1 Hx2.
        apply elem_of_take_pos in Hx1 as (j1 & Hj1 & Hx1).
        rewrite lookup_drop in Hx1.
        apply elem_of_cons in Hx2 as [-> | Hx2].
        -- apply (Hlow (S nf + j1) x1); [lia | exact Hx1].
        -- apply elem_of_drop_pos in Hx2 as (j2 & Hj2 & Hx2).
           rewrite lookup_drop in Hx2.
           apply (strict_lookup items (S nf + j1) (S nf + j2) x1 x2 Hsorted);
             [lia | exact Hx1 | exact Hx2].
      * specialize (Hdrop (S nf)).
        rewrite <- (take_drop c (drop (S nf) items)) in Hdrop.
        now apply StronglySorted_app_1_l in Hdrop.
      * constructor.
        -- specialize (Hdrop (S nf)).
           rewrite <- (take_drop c (drop (S nf) items)) in Hdrop.
           now apply StronglySorted_app_1_r in Hdrop.
        -- apply Forall_forall. intros x Hx.
           apply elem_of_drop_pos in Hx as (j & Hj & Hx).
           rewrite lookup_drop in Hx.
           apply (Hhigh (S nf + j) x); [lia | exact Hx].
  - (* the item moves towards the front, or stays *)
    rewrite take_app_le, drop_app_le by (rewrite length_take; lia).
    rewrite take_take, Nat.min_l by lia.
    apply StronglySorted_app_2; [|apply Htake|].
    + intros x1 x2 Hx1 Hx2.
      apply elem_of_take_pos in Hx1 as (j1 & Hj1 & Hx1).
      apply elem_of_cons in Hx2 as [-> | Hx2].
      * apply (Hlow j1 x1); [lia | exact Hx1].
      * apply elem_of_app in Hx2 as [Hx2 | Hx2].
        -- apply elem_of_drop_pos in Hx2 as (j2 & Hj2 & Hx2).
           apply lookup_take_Some in Hx2 as [Hx2 _].
           apply (strict_lookup items j1 j2 x1 x2 Hsorted);
             [lia | exact Hx1 | exact Hx2].
        -- apply list_elem_of_lookup_1 in Hx2 as (j2 & Hx2).
           rewrite lookup_drop in Hx2.
           apply (strict_lookup items j1 (S nf + j2) x1 x2 Hsorted);
             [lia | exact Hx1 | exact Hx2].
    + constructor.
      * apply StronglySorted_app_2.
        -- intros x1 x2 Hx1 Hx2.
           apply elem_of_drop_pos in Hx1 as (j1 & Hj1 & Hx1).
           apply lookup_take_Some in Hx1 as [Hx1 Hlt].
           apply list_elem_of_lookup_1 in Hx2 as (j2 & Hx2).
           rewrite lookup_drop in Hx2.
           apply (strict_lookup items j1 (S nf + j2) x1 x2 Hsorted);
             [lia | exact Hx1 | exact Hx2].
        -- specialize (Htake nf).
           rewrite <- (take_drop n (take nf items)) in Htake.
           now apply StronglySorted_app_1_r in Htake.
        -- apply Hdrop.
      * apply Forall_forall. intros x Hx.
        apply elem_of_app in Hx as [Hx | Hx].
        -- apply elem_of_drop_pos in Hx as (j & Hj & Hx).
           apply lookup_take_Some in Hx as [Hx _].
           apply (Hhigh j x); [lia | exact Hx].
        -- apply list_elem_of_lookup_1 in Hx as (j & Hx).
           rewrite lookup_drop in Hx.
           apply (Hhigh (S nf + j) x); [lia | exact Hx].
Qed.

Lemma relocate_Permutation {A} (nf n : nat) (x' : A) (xs : list A) :
  relocate nf n x' xs ≡ₚ x' :: delete nf xs.
Proof.
  unfold relocate. cbv zeta.
  rewrite <- Permutation_middle. constructor.
  now rewrite take_drop.
Qed.

(** The snapshot after a write, for keys that are all different: the
    written item moves to where its new key belongs and the other items
    keep their order. *)
Lemma write_relocates s (r nf n : nat) (it : Item) (key : string) :
  StronglySorted strictlyBefore (getOrderedItems s) ->
  getOrderedItems s !! nf = Some (r, it) ->
  splitsAt (getOrderedItems s) n key ->
  getOrderedItems (setItemOrder (r, it) key s)
  = relocate nf n (r, mkItem (itemId it) key) (getOrderedItems s).
Proof.
  intros Hstrict Hnf Hsplit.
  pose proof (relocate_sorted (getOrderedItems s) nf n (r, it)
                (r, mkItem (itemId it) key) Hstrict Hnf Hsplit) as Hsorted.
  assert (Hperm : getOrderedItems (setItemOrder (r, it) key s)
                  ≡ₚ relocate nf n (r, mkItem (itemId it) key)
                       (getOrderedItems s)).
  { rewrite relocate_Permutation. now apply getOrderedItems_after_write. }
  apply (StronglySorted_unique_strong inOrder);
    [| apply getOrderedItems_sorted | now apply strict_inOrder | exact Hperm].
  intros x1 x2 Hx1 Hx2 H12 H21.
  rewrite Hperm in Hx1.
  apply (strict_key_inj _ x1 x2 Hsorted Hx1 Hx2).
  now apply key_ge_antisym.
Qed.

End AfterWrite.

(** [find] returns the element at the index that [findIndex] returns. *)
Lemma find_findIndex {A} (p : A -> bool) (xs : list A) :
  Js.find p xs = Js.index xs (Js.findIndex p xs).
Proof.
  unfold Js.find.
  induction xs as [|x xs IH]; simpl; [reflexivity|].
  destruct (p x); [reflexivity|].
  rewrite IH. unfold Js.index.
  destruct (Z.ltb_spec (Js.findIndex p xs) 0) as [Hneg | Hpos];
    [reflexivity|].
  destruct (Z.ltb_spec (Js.findIndex p xs + 1) 0) as [Hneg' | _]; [lia|].
  now replace (Z.to_nat (Js.findIndex p xs + 1))
    with (S (Z.to_nat (Js.findIndex p xs))) by lia.
Qed.

Section Reordering.

Context {K : Type} `{EqDecision K}.
Variable generateKeyBetween : option string -> option string -> string.

Implicit Types (s : list (@Item K)).

(** X15.  [moveTo] on a collection whose keys are all different, with
    both items in it.  When the package keeps its contract on the call,
    the one write makes the sorted order the old one with the moved item
    taken out and put directly before the target, or directly behind
    it; the other items keep their order. *)
Theorem moveTo_reorders (fromId toId : K) (position : Position) s :
  present fromId s -> present toId s ->
  StronglySorted strictlyBefore (getOrderedItems s) ->
  exists (r nf nt : nat) (it : Item) (t : T) (lo hi : option string),
    getOrderedItems s !! nf = Some (r, it) /\ itemId it = fromId /\
    getOrderedItems s !! nt = Some t /\ getItemId t = toId /\
    (lo, hi)
    = match position with
      | before =>
          (orderOrNull (Js.index (getOrderedItems s) (Z.of_nat nt - 1)),
           Some (getItemOrder t))
      | after =>
          (Some (getItemOrder t),
           orderOrNull (Js.index (getOrderedItems s) (Z.of_nat nt + 1)))
      end /\
    moveTo generateKeyBetween fromId toId position s
    = [(Some (r, it), generateKeyBetween lo hi)] /\
    (above lo (generateKeyBetween lo hi) ->
     below (generateKeyBetween lo hi) hi ->
     perform (moveTo generateKeyBetween fromId toId position s) s
     = Some (setItemOrder (r, it) (generateKeyBetween lo hi) s) /\
     getOrderedItems (setItemOrder (r, it) (generateKeyBetween lo hi) s)
     = relocate nf match position with before => nt | after => S nt end
         (r, mkItem fromId (generateKeyBetween lo hi)) (getOrderedItems s)).
Proof.
  intros Hfrom Hto Hstrict.
  destruct (present_position fromId s Hfrom)
    as (nf & r & it & Hnf & Hlookf & Hr & Hit).
  destruct (present_position toId s Hto)
    as (nt & r' & it' & Hnt & Hlookt & _ & Hit').
  pose proof (getOrderedItems_sorted s) as Hsorted.
  assert (Hcall : forall lo hi,
    (lo, hi)
    = match position with
      | before =>
          (orderOrNull (Js.index (getOrderedItems s) (Z.of_nat nt - 1)),
           Some (getItemOrder (r', it')))
      | after =>
          (Some (getItemOrder (r', it')),
           orderOrNull (Js.index (getOrderedItems s) (Z.of_nat nt + 1)))
      end ->
    moveTo generateKeyBetween fromId toId position s
    = [(Some (r, it), generateKeyBetween lo hi)]).
  { intros lo hi Hbounds. unfold moveTo. cbv zeta.
    rewrite Hnf, Hnt, !index_of_nat. unfold T in *.
    rewrite Hlookf, Hlookt.
    destruct position; injection Hbounds as -> ->; reflexivity. }
  destruct position.
  - eexists r, nf, nt, it, (r', it'), _, _.
    split; [exact Hlookf|]. split; [exact Hit|]. split; [exact Hlookt|].
    split; [exact Hit'|]. split; [reflexivity|].
    split; [now apply Hcall|].
    intros Habove Hbelow. rewrite (Hcall _ _ eq_refl).
    split; [reflexivity|]. rewrite <- Hit.
    apply write_relocates; [exact Hstrict | exact Hlookf |].
    now apply (splitsAt_before _ nt (r', it') _ Hsorted Hlookt).
  - eexists r, nf, nt, it, (r', it'), _, _.
    split; [exact Hlookf|]. split; [exact Hit|]. split; [exact Hlookt|].
    split; [exact Hit'|]. split; [reflexivity|].
    split; [now apply Hcall|].
    intros Habove Hbelow. rewrite (Hcall _ _ eq_refl).
    split; [reflexivity|]. rewrite <- Hit.
    apply write_relocates; [exact Hstrict | exact Hlookf |].
    now apply (splitsAt_after _ nt (r', it') _ Hsorted Hlookt).
Qed.

(** X16.  [move] on a collection whose keys are all different, with
    both items in it.  When the package keeps its contract on the call,
    the one write makes the sorted order the old one with the moved item
    taken out and put directly behind the target when it sorted before
    it, directly before the target otherwise. *)
Theorem move_reorders (fromId toId : K) s :
  present fromId s -> present toId s ->
  StronglySorted strictlyBefore (getOrderedItems s) ->
  exists (r nf nt : nat) (it : Item) (t : T) (lo hi : option string),
    getOrderedItems s !! nf = Some (r, it) /\ itemId it = fromId /\
    getOrderedItems s !! nt = Some t /\ getItemId t = toId /\
    (lo, hi)
    = (if Nat.ltb nf nt
       then (Some (getItemOrder t),
             orderOrNull (Js.index (getOrderedItems s) (Z.of_nat nt + 1)))
       else (orderOrNull (Js.index (getOrderedItems s) (Z.of_nat nt - 1)),
             Some (getItemOrder t))) /\
    move generateKeyBetween fromId toId s
    = [(Some (r, it), generateKeyBetween lo hi)] /\
    (above lo (generateKeyBetween lo hi) ->
     below (generateKeyBetween lo hi) hi ->
     perform (move generateKeyBetween fromId toId s) s
     = Some (setItemOrder (r, it) (generateKeyBetween lo hi) s) /\
     getOrderedItems (setItemOrder (r, it) (generateKeyBetween lo hi) s)
     = relocate nf (if Nat.ltb nf nt then S nt else nt)
         (r, mkItem fromId (generateKeyBetween lo hi)) (getOrderedItems s)).
Proof.
  intros Hfrom Hto Hstrict.
  destruct (present_position fromId s Hfrom)
    as (nf & r & it & Hnf & Hlookf & Hr & Hit).
  destruct (present_position toId s Hto)
    as (nt & r' & it' & Hnt & Hlookt & _ & Hit').
  pose proof (getOrderedItems_sorted s) as Hsorted.
  assert (Hcmp : (Z.of_nat nf <? Z.of_nat nt)%Z = Nat.ltb nf nt).
  { destruct (Nat.ltb_spec nf nt), (Z.ltb_spec (Z.of_nat nf) (Z.of_nat nt));
      try reflexivity; lia. }
  assert (Hcall : forall lo hi,
    (lo, hi)
    = (if Nat.ltb nf nt
       then (Some (getItemOrder (r', it')),
             orderOrNull (Js.index (getOrderedItems s) (Z.of_nat nt + 1)))
       else (orderOrNull (Js.index (getOrderedItems s) (Z.of_nat nt - 1)),
             Some (getItemOrder (r', it')))) ->
    move generateKeyBetween fromId toId s
    = [(Some (r, it), generateKeyBetween lo hi)]).
  { intros lo hi Hbounds. unfold move. cbv zeta.
    rewrite Hnf, Hnt, Hcmp, !index_of_nat. unfold T in *.
    rewrite Hlookf, Hlookt.
    destruct (Nat.ltb nf nt); injection Hbounds as -> ->; reflexivity. }
  destruct (Nat.ltb nf nt) eqn:Hdir.
  - exists r, nf, nt, it, (r', it'),
      (Some (getItemOrder (r', it'))),
      (orderOrNull (Js.index (getOrderedItems s) (Z.of_nat nt + 1))).
    rewrite Hdir.
    split; [exact Hlookf|]. split; [exact Hit|]. split; [exact Hlookt|].
    split; [exact Hit'|]. split; [reflexivity|].
    split; [now apply Hcall|].
    intros Habove Hbelow. rewrite (Hcall _ _ eq_refl).
    split; [reflexivity|]. rewrite <- Hit.
    apply write_relocates; [exact Hstrict | exact Hlookf |].
    now apply (splitsAt_after _ nt (r', it') _ Hsorted Hlookt).
  - exists r, nf, nt, it, (r', it'),
      (orderOrNull (Js.index (getOrderedItems s) (Z.of_nat nt - 1))),
      (Some (getItemOrder (r', it'))).
    rewrite Hdir.
    split; [exact Hlookf|]. split; [exact Hit|]. split; [exact Hlookt|].
    split; [exact Hit'|]. split; [reflexivity|].
    split; [now apply Hcall|].
    intros Habove Hbelow. rewrite (Hcall _ _ eq_refl).
    split; [reflexivity|]. rewrite <- Hit.
    apply write_relocates; [exact Hstrict | exact Hlookf |].
    now apply (splitsAt_before _ nt (r', it') _ Hsorted Hlookt).
Qed.

(** X17.  [insertBefore] on a collection whose keys are all different,
    with both items in it.  When the package keeps its contract on the
    call, the one write makes the sorted order the old one with the item
    taken out and put directly before the target. *)
Theorem insertBefore_reorders (id beforeId : K) s :
  present id s -> present beforeId s ->
  StronglySorted strictlyBefore (getOrderedItems s) ->
  exists (r nf nt : nat) (it : Item) (t : T) (lo : option string),
    getOrderedItems s !! nf = Some (r, it) /\ itemId it = id /\
    getOrderedItems s !! nt = Some t /\ getItemId t = beforeId /\
    lo = orderOrNull (Js.index (getOrderedItems s) (Z.of_nat nt - 1)) /\
    insertBefore generateKeyBetween id (Some beforeId) s
    = [(Some (r, it), generateKeyBetween lo (Some (getItemOrder t)))] /\
    (above lo (generateKeyBetween lo (Some (getItemOrder t))) ->
     key_lt (generateKeyBetween lo (Some (getItemOrder t))) (getItemOrder t) ->
     perform (insertBefore generateKeyBetween id (Some beforeId) s) s
     = Some (setItemOrder (r, it)
               (generateKeyBetween lo (Some (getItemOrder t))) s) /\
     getOrderedItems
       (setItemOrder (r, it) (generateKeyBetween lo (Some (getItemOrder t))) s)
     = relocate nf nt
         (r, mkItem id (generateKeyBetween lo (Some (getItemOrder t))))
         (getOrderedItems s)).
Proof.
  intros Hid Hbefore Hstrict.
  destruct (present_position id s Hid)
    as (nf & r & it & Hnf & Hlookf & Hr & Hit).
  destruct (present_position beforeId s Hbefore)
    as (nt & r' & it' & Hnt & Hlookt & _ & Hit').
  pose proof (getOrderedItems_sorted s) as Hsorted.
  assert (Hcall :
    insertBefore generateKeyBetween id (Some beforeId) s
    = [(Some (r, it),
        generateKeyBetween
          (orderOrNull (Js.index (getOrderedItems s) (Z.of_nat nt - 1)))
          (Some (getItemOrder (r', it'))))]).
  { unfold insertBefore. cbv zeta.
    rewrite find_findIndex, Hnf, findIndex_before_Some, Hnt, !index_of_nat.
    destruct (Z.eqb_spec (Z.of_nat nt) (-1)) as [Hneg|_]; [lia|].
    unfold T in *. rewrite Hlookf, Hlookt. reflexivity. }
  eexists r, nf, nt, it, (r', it'), _.
  split; [exact Hlookf|]. split; [exact Hit|]. split; [exact Hlookt|].
  split; [exact Hit'|]. split; [reflexivity|].
  split; [exact Hcall|].
  intros Habove Hbelow. rewrite Hcall.
  split; [reflexivity|]. rewrite <- Hit.
  apply write_relocates; [exact Hstrict | exact Hlookf |].
  now apply (splitsAt_before _ nt (r', it') _ Hsorted Hlookt).
Qed.

End Reordering.

(** ** Reordering the sample collection *)

Lemma abc_strictly_sorted : StronglySorted strictlyBefore (getOrderedItems abc).
Proof. repeat constructor. Defined.

(** Placing item 1 before item 3 puts it between items 2 and 3, with
    the key the package gives between [a1] and [a2]. *)
Example moveTo_sample_order :
  moveTo sampleKeyBetween 1 3 before abc = [(Some (0, itemA), "a1V")] /\
  relocate 0 2 (0, mkItem 1 "a1V") (getOrderedItems abc)
  = [(1, itemB); (0, mkItem 1 "a1V"); (2, itemC)] /\
  getOrderedItems (setItemOrder (0, itemA) "a1V" abc)
  = [(1, itemB); (0, mkItem 1 "a1V"); (2, itemC)].
Proof. repeat split. Qed.

(** X15 on the sample collection, placing item 1 before item 3. *)
Lemma moveTo_reorders_witness :
  exists (r nf nt : nat) (it : Item) (t : T) (lo hi : option string),
    getOrderedItems abc !! nf = Some (r, it) /\ itemId it = 1 /\
    getOrderedItems abc !! nt = Some t /\ getItemId t = 3 /\
    (lo, hi)
    = (orderOrNull (Js.index (getOrderedItems abc) (Z.of_nat nt - 1)),
       Some (getItemOrder t)) /\
    moveTo sampleKeyBetween 1 3 before abc
    = [(Some (r, it), sampleKeyBetween lo hi)] /\
    (above lo (sampleKeyBetween lo hi) ->
     below (sampleKeyBetween lo hi) hi ->
     perform (moveTo sampleKeyBetween 1 3 before abc) abc
     = Some (setItemOrder (r, it) (sampleKeyBetween lo hi) abc) /\
     getOrderedItems (setItemOrder (r, it) (sampleKeyBetween lo hi) abc)
     = relocate nf nt (r, mkItem 1 (sampleKeyBetween lo hi))
         (getOrderedItems abc)).
Proof.
  exact (moveTo_reorders sampleKeyBetween 1 3 before abc
           present_abc_1 present_abc_3 abc_strictly_sorted).
Defined.

(** X16 on the sample collection, moving item 1 onto item 3. *)
Lemma move_reorders_witness :
  exists (r nf nt : nat) (it : Item) (t : T) (lo hi : option string),
    getOrderedItems abc !! nf = Some (r, it) /\ itemId it = 1 /\
    getOrderedItems abc !! nt = Some t /\ getItemId t = 3 /\
    (lo, hi)
    = (if Nat.ltb nf nt
       then (Some (getItemOrder t),
             orderOrNull (Js.index (getOrderedItems abc) (Z.of_nat nt + 1)))
       else (orderOrNull (Js.index (getOrderedItems abc) (Z.of_nat nt - 1)),
             Some (getItemOrder t))) /\
    move sampleKeyBetween 1 3 abc
    = [(Some (r, it), sampleKeyBetween lo hi)] /\
    (above lo (sampleKeyBetween lo hi) ->
     below (sampleKeyBetween lo hi) hi ->
     perform (move sampleKeyBetween 1 3 abc) abc
     = Some (setItemOrder (r, it) (sampleKeyBetween lo hi) abc) /\
     getOrderedItems (setItemOrder (r, it) (sampleKeyBetween lo hi) abc)
     = relocate nf (if Nat.ltb nf nt then S nt else nt)
         (r, mkItem 1 (sampleKeyBetween lo hi)) (getOrderedItems abc)).
Proof.
  exact (move_reorders sampleKeyBetween 1 3 abc
           present_abc_1 present_abc_3 abc_strictly_sorted).
Defined.

(** X17 on the sample collection, inserting item 1 before item 3. *)
Lemma insertBefore_reorders_witness :
  exists (r nf nt : nat) (it : Item) (t : T) (lo : option string),
    getOrderedItems abc !! nf = Some (r, it) /\ itemId it = 1 /\
    getOrderedItems abc !! nt = Some t /\ getItemId t = 3 /\
    lo = orderOrNull (Js.index (getOrderedItems abc) (Z.of_nat nt - 1)) /\
    insertBefore sampleKeyBetween 1 (Some 3) abc
    = [(Some (r, it), sampleKeyBetween lo (Some (getItemOrder t)))] /\
    (above lo (sampleKeyBetween lo (Some (getItemOrder t))) ->
     key_lt (sampleKeyBetween lo (Some (getItemOrder t))) (getItemOrder t) ->
     perform (insertBefore sampleKeyBetween 1 (Some 3) abc) abc
     = Some (setItemOrder (r, it)
               (sampleKeyBetween lo (Some (getItemOrder t))) abc) /\
     getOrderedItems
       (setItemOrder (r, it) (sampleKeyBetween lo (Some (getItemOrder t))) abc)
     = relocate nf nt
         (r, mkItem 1 (sampleKeyBetween lo (Some (getItemOrder t))))
         (getOrderedItems abc)).
Proof.
  exact (insertBefore_reorders sampleKeyBetween 1 3 abc
           present_abc_1 present_abc_3 abc_strictly_sorted).
Defined.

(** ** When the package may throw *)

(** On a package that always returns, the functions of [Module Throwing]
    do what the functions above do. *)
Lemma Throwing_agrees {K : Type} `{EqDecision K}
    (g : option string -> option string -> string)
    (values : nat -> N) (a b : option string)
    (fromId toId : K) (position : Position) (beforeId : option K)
    (s : list (@Item K)) :
  let gE := fun lo hi => Returned (g lo hi) in
  Throwing.generateFractionalIndexingKeyBetween gE values a b
  = generateFractionalIndexingKeyBetween g values a b /\
  Throwing.getNewItemOrder gE s = Returned (getNewItemOrder g s) /\
  Throwing.move gE fromId toId s = Returned (move g fromId toId s) /\
  Throwing.moveTo gE fromId toId position s
  = Returned (moveTo g fromId toId position s) /\
  Throwing.insertBefore gE fromId beforeId s
  = Returned (insertBefore g fromId beforeId s).
Proof.
  cbv zeta. repeat split.
  - unfold Throwing.moveTo, moveTo. cbv zeta.
    destruct (Js.index _ _); [|reflexivity]. now destruct position.
  - unfold Throwing.insertBefore, insertBefore. cbv zeta.
    now destruct (Js.find _ _).
Qed.

Section ThrowingTheorems.

Context {K : Type} `{EqDecision K}.
Variable generateKeyBetween : option string -> option string -> completion string.
Variable values : nat -> N.

Implicit Types (s : list (@Item K)).





(** X7.  [moveTo] with both items in the collection asks the package
    for a key between the keys of the target's predecessor and the
    target for [before], of the target and its successor for [after];
    a throw of the package ends the operation without a call.  When
    the package returns a key that keeps its contract, the operation
    gives it to the [fromId] item in one call, and the key lands
    directly before the target, or directly behind it. *)
Theorem moveTo_asks_then_lands (fromId toId : K) (position : Position) s :
  present fromId s -> present toId s ->
  exists (r n : nat) (it : Item) (t : T) (lo hi : option string),
    s !! r = Some it /\ itemId it = fromId /\
    getOrderedItems s !! n = Some t /\ getItemId t = toId /\
    (lo, hi)
    = match position with
      | before =>
          (orderOrNull (Js.index (getOrderedItems s) (Z.of_nat n - 1)),
           Some (getItemOrder t))
      | after =>
          (Some (getItemOrder t),
           orderOrNull (Js.index (getOrderedItems s) (Z.of_nat n + 1)))
      end /\
    Throwing.moveTo generateKeyBetween fromId toId position s
    = andThen (generateKeyBetween lo hi)
        (fun key => Returned [(Some (r, it), key)]) /\
    (forall key,
       generateKeyBetween lo hi = Returned key ->
       above lo key -> below key hi ->
       Throwing.moveTo generateKeyBetween fromId toId position s
       = Returned [(Some (r, it), key)] /\
       assignsOne [(Some (r, it), key)] s fromId /\
       splitsAt (getOrderedItems s)
         match position with before => n | after => S n end key).
Proof.
  intros Hfrom Hto.
  destruct (present_findIndex fromId s Hfrom) as (r & it & Hr & Hit & Hidx).
  destruct (present_position toId s Hto)
    as (n & r' & it' & Hn & Hlook & _ & Hit').
  pose proof (getOrderedItems_sorted s) as Hsorted.
  assert (Hcall : forall lo hi,
    (lo, hi)
    = match position with
      | before =>
          (orderOrNull (Js.index (getOrderedItems s) (Z.of_nat n - 1)),
           Some (getItemOrder (r', it')))
      | after =>
          (Some (getItemOrder (r', it')),
           orderOrNull (Js.index (getOrderedItems s) (Z.of_nat n + 1)))
      end ->
    Throwing.moveTo generateKeyBetween fromId toId position s
    = andThen (generateKeyBetween lo hi)
        (fun key => Returned [(Some (r, it), key)])).
  { intros lo hi Hbounds. unfold Throwing.moveTo. cbv zeta.
    rewrite Hidx, Hn, !index_of_nat. unfold T in *. rewrite Hlook.
    destruct position; injection Hbounds as -> ->; reflexivity. }
  destruct position.
  - eexists r, n, it, (r', it'), _, _.
    split; [exact Hr|]. split; [exact Hit|]. split; [exact Hlook|].
    split; [exact Hit'|]. split; [reflexivity|].
    split; [now apply Hcall|].
    intros key Hkey Habove Hbelow.
    rewrite (Hcall _ _ eq_refl), Hkey.
    split; [reflexivity|]. split.
    + subst fromId. now apply assignsOne_intro.
    + now apply (splitsAt_before _ n (r', it') _ Hsorted Hlook).
  - eexists r, n, it, (r', it'), _, _.
    split; [exact Hr|]. split; [exact Hit|]. split; [exact Hlook|].
    split; [exact Hit'|]. split; [reflexivity|].
    split; [now apply Hcall|].
    intros key Hkey Habove Hbelow.
    rewrite (Hcall _ _ eq_refl), Hkey.
    split; [reflexivity|]. split.
    + subst fromId. now apply assignsOne_intro.
    + now apply (splitsAt_after _ n (r', it') _ Hsorted Hlook).
Qed.

(** X8.  [insertBefore] with both items in the collection asks the
    package for a key between the keys of the target's predecessor and
    of the target; a throw of the package ends the operation without a
    call.  When the package returns a key that keeps its contract, the
    operation gives it to the item in one call, and the key lands
    directly before the target. *)
Theorem insertBefore_asks_then_lands (id beforeId : K) s :
  present id s -> present beforeId s ->
  exists (r n : nat) (it : Item) (t : T) (lo : option string),
    s !! r = Some it /\ itemId it = id /\
    getOrderedItems s !! n = Some t /\ getItemId t = beforeId /\
    lo = orderOrNull (Js.index (getOrderedItems s) (Z.of_nat n - 1)) /\
    Throwing.insertBefore generateKeyBetween id (Some beforeId) s
    = andThen (generateKeyBetween lo (Some (getItemOrder t)))
        (fun key => Returned [(Some (r, it), key)]) /\
    (forall key,
       generateKeyBetween lo (Some (getItemOrder t)) = Returned key ->
       above lo key -> key_lt key (getItemOrder t) ->
       Throwing.insertBefore generateKeyBetween id (Some beforeId) s
       = Returned [(Some (r, it), key)] /\
       assignsOne [(Some (r, it), key)] s id /\
       splitsAt (getOrderedItems s) n key).
Proof.
  intros Hid Hbefore.
  destruct (present_find id s Hid) as (r & it & Hr & Hit & Hfind).
  destruct (present_position beforeId s Hbefore)
    as (n & r' & it' & Hn & Hlook & _ & Hit').
  pose proof (getOrderedItems_sorted s) as Hsorted.
  assert (Hcall :
    Throwing.insertBefore generateKeyBetween id (Some beforeId) s
    = andThen
        (generateKeyBetween
           (orderOrNull (Js.index (getOrderedItems s) (Z.of_nat n - 1)))
           (Some (getItemOrder (r', it'))))
        (fun key => Returned [(Some (r, it), key)])).
  { unfold Throwing.insertBefore. cbv zeta.
    rewrite Hfind, findIndex_before_Some, Hn, index_of_nat.
    destruct (Z.eqb_spec (Z.of_nat n) (-1)) as [Hneg|_]; [lia|].
    unfold T in *. rewrite Hlook. reflexivity. }
  eexists r, n, it, (r', it'), _.
  split; [exact Hr|]. split; [exact Hit|]. split; [exact Hlook|].
  split; [exact Hit'|]. split; [reflexivity|].
  split; [exact Hcall|].
  intros key Hkey Habove Hbelow.
  rewrite Hcall, Hkey.
  split; [reflexivity|]. split.
  - subst id. now apply assignsOne_intro.
  - now apply (splitsAt_before _ n (r', it') _ Hsorted Hlook).
Qed.

End ThrowingTheorems.

(** ** Runs with the throwing package *)

(** [insertBefore(2, undefined)] leaves two items with the key [a0];
    on that collection the package is asked for a key between [a0] and
    [a0], throws, and no call of the hook is made. *)
Example equal_keys_make_the_package_throw :
  Throwing.insertBefore samplePackage 2 None abc
  = Returned [(Some (1, itemB), "a0")] /\
  perform [(Some (1, itemB), "a0")] abc = Some twoEqual /\
  Throwing.insertBefore samplePackage 3 (Some 2) twoEqual
  = Thrown "a0 >= a0" /\
  Throwing.moveTo samplePackage 3 2 before twoEqual = Thrown "a0 >= a0" /\
  Throwing.move samplePackage 3 2 twoEqual = Thrown "a0 >= a0".
Proof. repeat split. Qed.

(** Two keys in order whose subkeys are not: the package throws and so
    does the function. *)
Example subkeys_out_of_order_throw :
  key_lt suffixedKey ("a00" +:+ "zzzzzzzzzzzzzzzzzzzzzzzzzzzzzzzz") /\
  subkey (Some suffixedKey) = Some "a00V" /\
  subkey (Some ("a00" +:+ "zzzzzzzzzzzzzzzzzzzzzzzzzzzzzzzz")) = Some "a0" /\
  Throwing.generateFractionalIndexingKeyBetween samplePackage allSixty
    (Some suffixedKey) (Some ("a00" +:+ "zzzzzzzzzzzzzzzzzzzzzzzzzzzzzzzz"))
  = Thrown "a00V >= a0".
Proof. repeat split. Qed.



(** Moving item 3 behind a missing item asks for a key below [a0], the
    first key; the package answers [Zz] and item 3 sorts first. *)
Example moveTo_missing_target_front :
  Throwing.moveTo samplePackage 3 9 after abc
  = Returned [(Some (2, itemC), "Zz")] /\
  key_lt "Zz" (itemOrder itemA) /\
  getOrderedItems (setItemOrder (2, itemC) "Zz" abc)
  = [(2, mkItem 3 "Zz"); (0, itemA); (1, itemB)].
Proof. repeat split. Qed.

(** X7 on the sample collection, placing item 1 before item 3. *)
Lemma moveTo_asks_then_lands_witness :
  exists (r n : nat) (it : Item) (t : T) (lo hi : option string),
    abc !! r = Some it /\ itemId it = 1 /\
    getOrderedItems abc !! n = Some t /\ getItemId t = 3 /\
    (lo, hi)
    = (orderOrNull (Js.index (getOrderedItems abc) (Z.of_nat n - 1)),
       Some (getItemOrder t)) /\
    Throwing.moveTo samplePackage 1 3 before abc
    = andThen (samplePackage lo hi)
        (fun key => Returned [(Some (r, it), key)]) /\
    (forall key,
       samplePackage lo hi = Returned key ->
       above lo key -> below key hi ->
       Throwing.moveTo samplePackage 1 3 before abc
       = Returned [(Some (r, it), key)] /\
       assignsOne [(Some (r, it), key)] abc 1 /\
       splitsAt (getOrderedItems abc) n key).
Proof.
  exact (moveTo_asks_then_lands samplePackage 1 3 before abc
           present_abc_1 present_abc_3).
Defined.

(** X8 on the sample collection, inserting item 1 before item 3. *)
Lemma insertBefore_asks_then_lands_witness :
  exists (r n : nat) (it : Item) (t : T) (lo : option string),
    abc !! r = Some it /\ itemId it = 1 /\
    getOrderedItems abc !! n = Some t /\ getItemId t = 3 /\
    lo = orderOrNull (Js.index (getOrderedItems abc) (Z.of_nat n - 1)) /\
    Throwing.insertBefore samplePackage 1 (Some 3) abc
    = andThen (samplePackage lo (Some (getItemOrder t)))
        (fun key => Returned [(Some (r, it), key)]) /\
    (forall key,
       samplePackage lo (Some (getItemOrder t)) = Returned key ->
       above lo key -> key_lt key (getItemOrder t) ->
       Throwing.insertBefore samplePackage 1 (Some 3) abc
       = Returned [(Some (r, it), key)] /\
       assignsOne [(Some (r, it), key)] abc 1 /\
       splitsAt (getOrderedItems abc) n key).
Proof.
  exact (insertBefore_asks_then_lands samplePackage 1 3 abc
           present_abc_1 present_abc_3).
Defined.

(** Placing item 1 before item 3 with the throwing package: it answers
    [a1V] between [a1] and [a2], and the hook is called once. *)
Example moveTo_before_returns :
  samplePackage (Some "a1") (Some "a2") = Returned "a1V" /\
  Throwing.moveTo samplePackage 1 3 before abc
  = Returned [(Some (0, itemA), "a1V")] /\
  Throwing.insertBefore samplePackage 1 (Some 3) abc
  = Returned [(Some (0, itemA), "a1V")].
Proof. repeat split. Qed.
